(** * NanoQuiz: a shallow embedding of [server.js]

    The quiz server keeps a registry of game-state objects, a table of
    pending round timers and a per-address table of recent event times.
    Every socket event is a synchronous handler; the embedding makes each
    handler a function on an explicit [World] and keeps the messages it
    emits in a log.

    Conventions of the embedding.
    - JavaScript numbers that the server handles (timestamps in
      milliseconds, time limits in seconds, scores) are integers, in [Z].
      The one place where the source divides, the scoring formula, is
      taken in exact arithmetic over the rationals [Q]; [Binary64] has the
      same expression in double precision.
    - Strings are [string]; a character is a code unit below 256.
    - Untrusted client values are [JSON] trees. The event arguments
      [gameId], [questionId], [optionId] and the quiz payload are such
      trees; a player name is a string.
    - State objects live in a heap and are named by their address, since
      the registry and the timer callbacks share them.
    - [Date.now()], [nanoid()] and [Math.random()] are inputs of the event
      that triggers the handler.
    - The transport (rooms, socket membership) is not modelled: an emitted
      message is logged with its destination. *)

From Stdlib Require Import ZArith QArith Qround Lia Bool Ascii String List Sorted.
From Stdlib Require Import PrimFloat SpecFloat FloatOps Uint63.
From stdpp Require Import base option list strings gmap.

Set Warnings "-register-all".
Open Scope string_scope.
Open Scope Z_scope.

(** ** Untrusted values *)

Inductive JSON : Type :=
  | JUndefined
  | JNull
  | JBool (b : bool)
  | JNum (n : Z)
  | JStr (s : string)
  | JArr (items : list JSON)
  | JObj (fields : list (string * JSON)).

(** [lookupKey k fs]: the value stored under [k] in an insertion-ordered
    table, used for object fields and for the JavaScript [Map]s. *)
Fixpoint lookupKey {A : Type} (k : string) (fs : list (string * A)) : option A :=
  match fs with
  | [] => None
  | (k', v) :: rest => if String.eqb k k' then Some v else lookupKey k rest
  end.

(** [v.k] for the property names the server reads: the field of a plain
    object, [undefined] on anything else. *)
Definition prop (k : string) (v : JSON) : JSON :=
  match v with
  | JObj fs => match lookupKey k fs with Some x => x | None => JUndefined end
  | _ => JUndefined
  end.

(** [!!v] *)
Definition truthy (v : JSON) : bool :=
  match v with
  | JUndefined | JNull => false
  | JBool b => b
  | JNum n => negb (n =? 0)
  | JStr s => negb (String.eqb s EmptyString)
  | JArr _ | JObj _ => true
  end.

(** [typeof v === 'object'] *)
Definition typeofObject (v : JSON) : bool :=
  match v with
  | JNull | JArr _ | JObj _ => true
  | _ => false
  end.

(** [v != null] *)
Definition notNullish (v : JSON) : bool :=
  match v with
  | JUndefined | JNull => false
  | _ => true
  end.

(** [s === v] for a string [s] held by the server. *)
Definition strictEqStr (s : string) (v : JSON) : bool :=
  match v with
  | JStr s' => String.eqb s s'
  | _ => false
  end.

(** ** [String.prototype.trim] *)

Definition isWhiteSpace (c : ascii) : bool :=
  let n := nat_of_ascii c in
  (Nat.eqb n 9 || Nat.eqb n 10 || Nat.eqb n 11 || Nat.eqb n 12
   || Nat.eqb n 13 || Nat.eqb n 32 || Nat.eqb n 160)%bool.

Fixpoint trimStart (s : string) : string :=
  match s with
  | EmptyString => EmptyString
  | String c rest => if isWhiteSpace c then trimStart rest else s
  end.

Fixpoint trimEnd (s : string) : string :=
  match s with
  | EmptyString => EmptyString
  | String c rest =>
      match trimEnd rest with
      | EmptyString => if isWhiteSpace c then EmptyString else String c EmptyString
      | kept => String c kept
      end
  end.

Definition trim (s : string) : string := trimEnd (trimStart s).

(** ** [validateQuizPayload] *)

(** [typeof v !== 'string' || !v.trim()], negated. *)
Definition nonBlankString (v : JSON) : bool :=
  match v with
  | JStr s => negb (String.eqb (trim s) EmptyString)
  | _ => false
  end.

(** [!v || typeof v !== 'object'], negated. *)
Definition objectLike (v : JSON) : bool := truthy v && typeofObject v.

Definition validateOption (opt : JSON) : bool :=
  if negb (objectLike opt) then false
  else if negb (nonBlankString (prop "id" opt)) then false
  else if negb (nonBlankString (prop "label" opt)) then false
  else true.

Definition validateQuestion (q : JSON) : bool :=
  if negb (objectLike q) then false
  else if negb (nonBlankString (prop "id" q)) then false
  else if negb (nonBlankString (prop "text" q)) then false
  else
    match prop "options" q with
    | JArr opts =>
        if (length opts <? 2)%nat then false
        else if negb (forallb validateOption opts) then false
        else
          match prop "correctOptionIds" q with
          | JArr cids =>
              if (length cids =? 0)%nat then false
              else forallb nonBlankString cids
          | _ => false
          end
    | _ => false
    end.

Definition validateQuizPayload (payload : JSON) : bool :=
  if negb (objectLike payload) then false
  else
    match prop "questions" payload with
    | JArr qs =>
        if (length qs =? 0)%nat then false
        else if negb (nonBlankString (prop "title" payload)) then false
        else forallb validateQuestion qs
    | _ => false
    end.

(** The validator's contract in the words of the specification. *)
Module ValidatorSpec.

Definition NonEmptyTrimmed (v : JSON) : Prop :=
  exists s, v = JStr s /\ trim s <> EmptyString.

Definition IsRecord (v : JSON) : Prop := exists fs, v = JObj fs.

Definition GoodOption (opt : JSON) : Prop :=
  IsRecord opt /\ NonEmptyTrimmed (prop "id" opt)
  /\ NonEmptyTrimmed (prop "label" opt).

Definition GoodQuestion (q : JSON) : Prop :=
  IsRecord q
  /\ NonEmptyTrimmed (prop "id" q)
  /\ NonEmptyTrimmed (prop "text" q)
  /\ (exists opts, prop "options" q = JArr opts
        /\ (2 <= length opts)%nat /\ Forall GoodOption opts)
  /\ (exists cids, prop "correctOptionIds" q = JArr cids
        /\ cids <> [] /\ Forall NonEmptyTrimmed cids).

Definition GoodQuiz (payload : JSON) : Prop :=
  IsRecord payload
  /\ NonEmptyTrimmed (prop "title" payload)
  /\ (exists qs, prop "questions" payload = JArr qs
        /\ qs <> [] /\ Forall GoodQuestion qs).

(** Referential integrity, which the validator does not ask for: every
    correct id of every question is the id of one of its options. *)
Definition optionIds (q : JSON) : list JSON :=
  match prop "options" q with
  | JArr opts => map (prop "id") opts
  | _ => []
  end.

Definition correctIds (q : JSON) : list JSON :=
  match prop "correctOptionIds" q with
  | JArr cids => cids
  | _ => []
  end.

Definition ReferentiallyIntact (payload : JSON) : Prop :=
  match prop "questions" payload with
  | JArr qs => Forall (fun q => Forall (fun c => In c (optionIds q)) (correctIds q)) qs
  | _ => True
  end.

(** A quiz whose only correct id, ["z"], names none of its options. *)
Definition danglingQuiz : JSON :=
  JObj [("title", JStr "Capitals");
        ("questions",
         JArr [JObj [("id", JStr "q1");
                     ("text", JStr "Capital of France?");
                     ("options",
                      JArr [JObj [("id", JStr "a"); ("label", JStr "Paris")];
                            JObj [("id", JStr "b"); ("label", JStr "Rome")]]);
                     ("correctOptionIds", JArr [JStr "z"])]])].

End ValidatorSpec.

(** ** Scoring (the loop body of [endRound]) *)

(** [Math.floor(500 + 500 * (timeRemaining / timeLimit))] *)
Definition roundPoints (timeLimitSeconds endMs answeredAtMs : Z) : Z :=
  let timeLimit := timeLimitSeconds * 1000 in
  let timeRemaining := Z.max 0 (endMs - answeredAtMs) in
  Qfloor (500 + 500 * (inject_Z timeRemaining / inject_Z timeLimit))%Q.

(** [p.answeredAtMs] used as a condition: set and not [0]. *)
Definition truthyTime (t : option Z) : bool :=
  match t with
  | Some n => negb (n =? 0)
  | None => false
  end.

(** What [endRound] adds to [p.score]. *)
Definition scoreIncrement (timeLimitSeconds endMs : Z)
    (answeredAtMs : option Z) (correct : bool) : Z :=
  if correct && truthyTime answeredAtMs
  then roundPoints timeLimitSeconds endMs (default 0 answeredAtMs)
  else 0.

(** The scoring rule in the words of the specification. *)
Definition specPoints (timeLimitSeconds roundEnd answerTimestamp : Z)
    (correct : bool) : Z :=
  if correct
  then
    let timeRemaining := Z.max 0 (roundEnd - answerTimestamp) in
    Qfloor (500 + 500 * inject_Z timeRemaining
                  / inject_Z (timeLimitSeconds * 1000))%Q
  else 0.

(** ** The scoring formula in binary64

    The source computes the points in double-precision arithmetic. This is
    the same expression over Rocq's primitive floats, for a remaining time
    given in whole milliseconds. *)
Module Binary64.

Definition ofZ (z : Z) : float := PrimFloat.of_uint63 (Uint63.of_Z z).

(** [Math.floor] of a float that is finite and not negative. *)
Definition floor (x : float) : option Z :=
  match Prim2SF x with
  | S754_zero _ => Some 0
  | S754_finite false m e => Some (Z.shiftl (Z.pos m) e)
  | _ => None
  end.

(** [Math.floor(500 + 500 * (timeRemaining / timeLimit))] *)
Definition roundPoints (timeLimitSeconds timeRemaining : Z) : option Z :=
  let timeLimit := (ofZ timeLimitSeconds * ofZ 1000)%float in
  floor (ofZ 500 + ofZ 500 * (ofZ timeRemaining / timeLimit))%float.

(** [f] holds at [z], [z + 1], ..., [z + n]. *)
Fixpoint allFrom (n : nat) (z : Z) (f : Z -> bool) : bool :=
  match n with
  | O => f z
  | S n' => f z && allFrom n' (z + 1) f
  end.

(** The float result for [timeRemaining] is the exact one. *)
Definition exactAt (timeLimitSeconds timeRemaining : Z) : bool :=
  match roundPoints timeLimitSeconds timeRemaining with
  | Some p => p =? 500 + (500 * timeRemaining) / (timeLimitSeconds * 1000)
  | None => false
  end.

End Binary64.

(** ** Rate limiter *)

Definition RATE_LIMIT_WINDOW_MS : Z := 10 * 1000.
Definition RATE_LIMIT_MAX : nat := 30.

(** [while (arr.length && arr[0] < now - RATE_LIMIT_WINDOW_MS) arr.shift()] *)
Fixpoint dropOld (now : Z) (arr : list Z) : list Z :=
  match arr with
  | [] => []
  | t :: rest =>
      if t <? now - RATE_LIMIT_WINDOW_MS then dropOld now rest else arr
  end.

(** [rateLimit(socket, eventName)] with [ip = socket.handshake.address]:
    the verdict and the updated [rateLimitMap]. *)
Definition rateLimit (ip : string) (now : Z) (m : gmap string (list Z))
    : bool * gmap string (list Z) :=
  let arr := default [] (m !! ip) in
  let arr' := (dropOld now arr ++ [now])%list in
  (negb (RATE_LIMIT_MAX <? length arr')%nat, <[ip := arr']> m).

(** ** Server state *)

Module Player.
(** A value of [state.players]. *)
Record t : Type := mk {
  name : string;
  score : Z;
  answeredAtMs : option Z;
  selectedOptionId : JSON;
  lastCorrect : bool
}.
End Player.

Module Question.
(** An element of [state.questions]: the fields of the validated payload
    question that the server reads, with [index] and the clamped
    [timeLimitSeconds] that [createGameState] adds. *)
Record t : Type := mk {
  id : string;
  index : Z;
  text : string;
  imageUrl : JSON;
  timeLimitSeconds : Z;
  options : list JSON;
  correctOptionIds : list string
}.
End Question.

Module Round.
(** [state.round] when it is not [null]. *)
Record t : Type := mk {
  startMs : Z;
  endMs : Z;
  timer : nat;
  awaiting : list string
}.
End Round.

Module Game.
(** The object returned by [createGameState]. [players] is a [Map] and
    keeps insertion order. *)
Record t : Type := mk {
  id : string;
  hostSocketId : string;
  title : JSON;
  questions : list Question.t;
  players : list (string * Player.t);
  started : bool;
  currentIndex : Z;
  round : option Round.t
}.

Definition withPlayers (ps : list (string * Player.t)) (st : t) : t :=
  mk (id st) (hostSocketId st) (title st) (questions st) ps
     (started st) (currentIndex st) (round st).

Definition withStarted (b : bool) (st : t) : t :=
  mk (id st) (hostSocketId st) (title st) (questions st) (players st)
     b (currentIndex st) (round st).

Definition withCurrentIndex (i : Z) (st : t) : t :=
  mk (id st) (hostSocketId st) (title st) (questions st) (players st)
     (started st) i (round st).

Definition withRound (r : option Round.t) (st : t) : t :=
  mk (id st) (hostSocketId st) (title st) (questions st) (players st)
     (started st) (currentIndex st) r.
End Game.

(** ** Messages *)

Record LeaderboardEntry : Type := mkEntry {
  entryName : string;
  entryScore : Z;
  entryLastCorrect : bool
}.

Inductive Message : Type :=
  | LobbyUpdate (players : list string) (gameId : string) (title : JSON)
  | GameStarted (title : JSON)
  | QuestionShow (id : string) (index total : Z) (text : string)
      (imageUrl : JSON) (timeLimitSeconds : Z) (options : list JSON)
  | PlayerLocked (optionId : JSON)
  | QuestionReveal (correctOptionIds : list string) (index total : Z)
      (leaderboard : list LeaderboardEntry)
  | HostCanAdvance
  | GameOver (leaderboard : list LeaderboardEntry)
  | GameCancelled
  | AckError (error : string)
  | AckCreated (gameId : string)
  | AckJoined (gameId : JSON) (title : JSON).

(** [io.to(room).emit(...)], or the acknowledgement callback of a socket. *)
Inductive Dest : Type :=
  | Room (room : string)
  | Callback (socketId : string).

(** ** The process *)

Record World : Type := mkWorld {
  (** [games]: id to state object, in insertion order; an object is
      named by its address in [heap]. *)
  games : list (string * nat);
  (** Every state object created so far. An object removed from [games]
      stays here: a timer callback may still hold it. *)
  heap : list Game.t;
  (** Pending [setTimeout] callbacks [() => endRound(state)]: timer
      handle to the address of the captured [state]. *)
  timers : gmap nat nat;
  nextTimer : nat;
  rateLimitMap : gmap string (list Z);
  (** Everything emitted so far, oldest first. *)
  outbox : list (Dest * Message)
}.

Definition initialWorld : World := mkWorld [] [] ∅ 0%nat ∅ [].

(** How a handler ends. *)
Inductive Outcome (A : Type) : Type :=
  | Ok (a : A)
  | Uncaught        (* a TypeError leaves the handler: the process dies *)
  | OutOfModel.     (* a number the embedding has no value for, or an
                       address that names no object *)
Arguments Ok {A} a.
Arguments Uncaught {A}.
Arguments OutOfModel {A}.

#[global] Instance outcome_bind : MBind Outcome :=
  fun A B (k : A -> Outcome B) (c : Outcome A) =>
    match c with
    | Ok a => k a
    | Uncaught => Uncaught
    | OutOfModel => OutOfModel
    end.

Definition withGames (g : list (string * nat)) (w : World) : World :=
  mkWorld g (heap w) (timers w) (nextTimer w) (rateLimitMap w) (outbox w).

Definition withRateLimitMap (m : gmap string (list Z)) (w : World) : World :=
  mkWorld (games w) (heap w) (timers w) (nextTimer w) m (outbox w).

Definition emit (d : Dest) (m : Message) (w : World) : World :=
  mkWorld (games w) (heap w) (timers w) (nextTimer w) (rateLimitMap w)
          (outbox w ++ [(d, m)])%list.

(** Store [st] into the object at address [a]. *)
Definition store (a : nat) (st : Game.t) (w : World) : World :=
  mkWorld (games w) (<[a := st]> (heap w)) (timers w) (nextTimer w)
          (rateLimitMap w) (outbox w).

(** [new] object. *)
Definition alloc (st : Game.t) (w : World) : nat * World :=
  (length (heap w),
   mkWorld (games w) (heap w ++ [st])%list (timers w) (nextTimer w)
           (rateLimitMap w) (outbox w)).

(** [setTimeout(() => endRound(state), _)] for the object at [a]. *)
Definition setTimeout (a : nat) (w : World) : nat * World :=
  (nextTimer w,
   mkWorld (games w) (heap w) (<[nextTimer w := a]> (timers w))
           (S (nextTimer w)) (rateLimitMap w) (outbox w)).

Definition clearTimeout (t : nat) (w : World) : World :=
  mkWorld (games w) (heap w) (delete t (timers w)) (nextTimer w)
          (rateLimitMap w) (outbox w).

(** [Map.prototype.set], [delete] and [has] on an insertion-ordered table. *)
Fixpoint mapSet {A : Type} (k : string) (v : A) (m : list (string * A))
    : list (string * A) :=
  match m with
  | [] => [(k, v)]
  | (k', v') :: rest =>
      if String.eqb k k' then (k, v) :: rest else (k', v') :: mapSet k v rest
  end.

Definition mapDelete {A : Type} (k : string) (m : list (string * A))
    : list (string * A) :=
  filter (fun e => k ≠ e.1) m.

Definition mapHas {A : Type} (k : string) (m : list (string * A)) : bool :=
  match lookupKey k m with Some _ => true | None => false end.

(** [games.get(gameId)] for a client-supplied [gameId]: only a string can
    equal a key. *)
Definition getGame (gameId : JSON) (w : World) : option (nat * Game.t) :=
  match gameId with
  | JStr k =>
      match lookupKey k (games w) with
      | Some a => match heap w !! a with Some st => Some (a, st) | None => None end
      | None => None
      end
  | _ => None
  end.

(** [arr.sort(cmp)], stable; [before y x] says [cmp(y, x) < 0]. *)
Fixpoint insertSorted {A : Type} (before : A -> A -> bool) (x : A) (l : list A)
    : list A :=
  match l with
  | [] => [x]
  | y :: rest =>
      if before y x then y :: insertSorted before x rest else x :: l
  end.

Definition sortStable {A : Type} (before : A -> A -> bool) (l : list A) : list A :=
  foldr (insertSorted before) [] l.

(** [shuffle(arr)]: element [i] is tagged with the [i]-th random number and
    the tagged list is sorted by tag. *)
Definition shuffle {A : Type} (rands : list Z) (arr : list A) : list A :=
  map snd
    (sortStable (fun y x => fst y <? fst x)
       (imap (fun i v => (nth i rands 0, v)) arr)).

Definition getPublicLeaderboard (st : Game.t) : list LeaderboardEntry :=
  sortStable (fun y x => entryScore x - entryScore y <? 0)
    (map (fun e => mkEntry (Player.name e.2) (Player.score e.2)
                           (Player.lastCorrect e.2))
         (Game.players st)).

Definition broadcastLobby (st : Game.t) (w : World) : World :=
  emit (Room (Game.id st))
       (LobbyUpdate (map (fun e => Player.name e.2) (Game.players st))
                    (Game.id st) (Game.title st))
       w.

(** ** [sanitizeName] *)

Fixpoint containsGt (s : string) : bool :=
  match s with
  | EmptyString => false
  | String c rest => if Ascii.eqb c ">" then true else containsGt rest
  end.

(** [.replace(/<[^>]*>/g, '')]: a tag runs from a ["<"] to the next [">"];
    a ["<"] with no [">"] after it stays. *)
Fixpoint stripTags (inTag : bool) (s : string) : string :=
  match s with
  | EmptyString => EmptyString
  | String c rest =>
      if inTag then stripTags (negb (Ascii.eqb c ">")) rest
      else if Ascii.eqb c "<" && containsGt rest then stripTags true rest
      else String c (stripTags false rest)
  end.

(** The class [[\w\s\-'.!]]. *)
Definition isNameChar (c : ascii) : bool :=
  let n := nat_of_ascii c in
  ((65 <=? n) && (n <=? 90) || (97 <=? n) && (n <=? 122)
   || (48 <=? n) && (n <=? 57) || (n =? 95)
   || isWhiteSpace c
   || (n =? 45) || (n =? 39) || (n =? 46) || (n =? 33))%nat.

Fixpoint keepNameChars (s : string) : string :=
  match s with
  | EmptyString => EmptyString
  | String c rest =>
      if isNameChar c then String c (keepNameChars rest) else keepNameChars rest
  end.

Definition sanitizeName (name : string) : string :=
  trim (substring 0 20 (keepNameChars (stripTags false name))).

(** ** [createGameState] *)

Definition MAX_GAMES : nat := 100.
Definition MAX_PLAYERS_PER_GAME : nat := 100.

(** The number that [Math.min(90, v || dflt)] sees; [None] where it is
    not an integer the embedding has (a non-empty string, an array, an
    object). *)
Definition orNumber (v : JSON) (dflt : Z) : option Z :=
  match v with
  | JUndefined | JNull => Some dflt
  | JBool b => Some (if b then 1 else dflt)
  | JNum n => Some (if n =? 0 then dflt else n)
  | JStr s => if String.eqb s EmptyString then Some dflt else None
  | JArr _ | JObj _ => None
  end.

(** [Math.max(5, Math.min(90, x))] *)
Definition clampSeconds (x : Z) : Z := Z.max 5 (Z.min 90 x).

Definition asString (v : JSON) : option string :=
  match v with JStr s => Some s | _ => None end.

Definition asArray (v : JSON) : option (list JSON) :=
  match v with JArr l => Some l | _ => None end.

(** [{...q, index: idx, timeLimitSeconds: ...}] for a question [q] of the
    shape that [validateQuizPayload] accepts. *)
Definition makeQuestion (defaultTime : Z) (idx : nat) (q : JSON)
    : option Question.t :=
  qid ← asString (prop "id" q);
  qtext ← asString (prop "text" q);
  opts ← asArray (prop "options" q);
  cids ← asArray (prop "correctOptionIds" q);
  correct ← mapM asString cids;
  limit ← orNumber (prop "timeLimitSeconds" q) defaultTime;
  Some (Question.mk qid (Z.of_nat idx) qtext
          (if truthy (prop "imageUrl" q) then prop "imageUrl" q else JNull)
          (clampSeconds limit) opts correct).

Definition createGameState (hostSocketId : string) (payload : JSON)
    (gameId : string) (rands : list Z) : option Game.t :=
  dflt ← orNumber (prop "defaultTimeLimitSeconds" payload) 20;
  let defaultTime := clampSeconds dflt in
  qs ← asArray (prop "questions" payload);
  shuffledQuestions ← mapM (fun iq => makeQuestion defaultTime iq.1 iq.2)
                           (imap pair (shuffle rands qs));
  Some (Game.mk gameId hostSocketId
          (if truthy (prop "title" payload) then prop "title" payload
           else JStr "Quiz")
          shuffledQuestions [] false (-1) None).

(** ** Rounds *)

(** [state.questions[state.currentIndex]] *)
Definition currentQuestion (st : Game.t) : option Question.t :=
  if Game.currentIndex st <? 0 then None
  else Game.questions st !! Z.to_nat (Game.currentIndex st).

Definition endGame (st : Game.t) (w : World) : World :=
  let w1 := emit (Room (Game.id st)) (GameOver (getPublicLeaderboard st)) w in
  withGames (mapDelete (Game.id st) (games w1)) w1.

Definition resetPlayer (p : Player.t) : Player.t :=
  Player.mk (Player.name p) (Player.score p) None JNull false.

Definition startQuestion (a : nat) (now : Z) (w : World) : Outcome World :=
  match heap w !! a with
  | None => OutOfModel
  | Some st0 =>
      let st := Game.withCurrentIndex (Game.currentIndex st0 + 1) st0 in
      let w := store a st w in
      if Z.of_nat (length (Game.questions st)) <=? Game.currentIndex st
      then Ok (endGame st w)
      else
        match currentQuestion st with
        | None => Uncaught
        | Some q =>
            let startMs := now in
            let endMs := startMs + Question.timeLimitSeconds q * 1000 in
            let st := Game.withPlayers
                        (map (fun e => (e.1, resetPlayer e.2)) (Game.players st))
                        st in
            let (t, w) := setTimeout a w in
            let st := Game.withRound
                        (Some (Round.mk startMs endMs t
                                 (map fst (Game.players st))))
                        st in
            Ok (emit (Room (Game.id st))
                  (QuestionShow (Question.id q) (Game.currentIndex st)
                     (Z.of_nat (length (Game.questions st)))
                     (Question.text q) (Question.imageUrl q)
                     (Question.timeLimitSeconds q) (Question.options q))
                  (store a st w))
        end
  end.

(** [answered && q.correctOptionIds.includes(p.selectedOptionId)] *)
Definition isCorrect (q : Question.t) (p : Player.t) : bool :=
  notNullish (Player.selectedOptionId p)
  && existsb (fun c => strictEqStr c (Player.selectedOptionId p))
             (Question.correctOptionIds q).

(** One turn of the scoring loop of [endRound]. *)
Definition scorePlayer (q : Question.t) (r : Round.t) (p : Player.t) : Player.t :=
  let correct := isCorrect q p in
  Player.mk (Player.name p)
    (Player.score p
     + scoreIncrement (Question.timeLimitSeconds q) (Round.endMs r)
         (Player.answeredAtMs p) correct)
    (Player.answeredAtMs p) (Player.selectedOptionId p) correct.

Definition endRound (a : nat) (w : World) : Outcome World :=
  match heap w !! a with
  | None => OutOfModel
  | Some st =>
      match Game.round st with
      | None => Ok w
      | Some r =>
          let w := clearTimeout (Round.timer r) w in
          match currentQuestion st with
          | None => Uncaught
          | Some q =>
              let st := Game.withPlayers
                          (map (fun e => (e.1, scorePlayer q r e.2))
                               (Game.players st))
                          st in
              let w := emit (Room (Game.id st))
                         (QuestionReveal (Question.correctOptionIds q)
                            (Game.currentIndex st)
                            (Z.of_nat (length (Game.questions st)))
                            (getPublicLeaderboard st))
                         (store a st w) in
              let st := Game.withRound None st in
              Ok (emit (Room (Game.hostSocketId st)) HostCanAdvance
                    (store a st w))
          end
      end
  end.

Definition maybeEndEarly (a : nat) (w : World) : Outcome World :=
  match heap w !! a with
  | None => OutOfModel
  | Some st =>
      match Game.round st with
      | None => Ok w
      | Some r =>
          if (length (Round.awaiting r) =? 0)%nat
          then endRound a (clearTimeout (Round.timer r) w)
          else Ok w
      end
  end.

(** ** Socket handlers *)

Record Socket : Type := mkSocket {
  socketId : string;      (* [socket.id] *)
  address : string        (* [socket.handshake.address] *)
}.

(** [ack && ack(msg)] *)
Definition reply (ack : bool) (s : Socket) (msg : Message) (w : World) : World :=
  if ack then emit (Callback (socketId s)) msg w else w.

(** ['host:createGame'] *)
Definition host_createGame (s : Socket) (payload : JSON) (ack : bool)
    (newId : string) (rands : list Z) (w : World) : Outcome World :=
  if (MAX_GAMES <=? length (games w))%nat
  then Ok (reply ack s (AckError "Too many games running. Try again later.") w)
  else if negb (validateQuizPayload payload)
  then Ok (reply ack s (AckError "Invalid quiz JSON format.") w)
  else
    match createGameState (socketId s) payload newId rands with
    | None => OutOfModel
    | Some st =>
        let (a, w) := alloc st w in
        let w := withGames (mapSet (Game.id st) a (games w)) w in
        let w := reply ack s (AckCreated (Game.id st)) w in
        Ok (broadcastLobby st w)
    end.

(** ['host:startGame'] *)
Definition host_startGame (s : Socket) (gameId : JSON) (now : Z) (w : World)
    : Outcome World :=
  match getGame gameId w with
  | None => Ok w
  | Some (a, st) =>
      if negb (String.eqb (Game.hostSocketId st) (socketId s)) || Game.started st
      then Ok w
      else
        let st := Game.withStarted true st in
        let w := emit (Room (Game.id st)) (GameStarted (Game.title st))
                      (store a st w) in
        startQuestion a now w
  end.

(** ['host:next'] *)
Definition host_next (s : Socket) (gameId : JSON) (now : Z) (w : World)
    : Outcome World :=
  match getGame gameId w with
  | None => Ok w
  | Some (a, st) =>
      if negb (String.eqb (Game.hostSocketId st) (socketId s))
      then Ok w
      else startQuestion a now w
  end.

(** ['player:join'] *)
Definition player_join (s : Socket) (gameId : JSON) (name : string)
    (ack : bool) (w : World) : Outcome World :=
  match getGame gameId w with
  | None => Ok (reply ack s (AckError "Game not found or already started") w)
  | Some (a, st) =>
      if Game.started st
      then Ok (reply ack s (AckError "Game not found or already started") w)
      else if (MAX_PLAYERS_PER_GAME <=? length (Game.players st))%nat
      then Ok (reply ack s (AckError "Game is full.") w)
      else
        let safeName := sanitizeName name in
        let st := Game.withPlayers
                    (mapSet (socketId s)
                       (Player.mk safeName 0 None JNull false)
                       (Game.players st))
                    st in
        let w := reply ack s (AckJoined gameId (Game.title st))
                       (store a st w) in
        Ok (broadcastLobby st w)
  end.

(** ['player:answer'] *)
Definition player_answer (s : Socket) (gameId questionId optionId : JSON)
    (now : Z) (w : World) : Outcome World :=
  match getGame gameId w with
  | None => Ok w
  | Some (a, st) =>
      match Game.round st with
      | None => Ok w
      | Some r =>
          match lookupKey (socketId s) (Game.players st) with
          | None => Ok w
          | Some p =>
              match currentQuestion st with
              | None => Ok w
              | Some q =>
                  if negb (strictEqStr (Question.id q) questionId) then Ok w
                  else if notNullish (Player.selectedOptionId p) then Ok w
                  else
                    let p := Player.mk (Player.name p) (Player.score p)
                               (Some now) optionId (Player.lastCorrect p) in
                    let r := Round.mk (Round.startMs r) (Round.endMs r)
                               (Round.timer r)
                               (filter (fun k => k ≠ socketId s)
                                       (Round.awaiting r)) in
                    let st := Game.withRound (Some r)
                                (Game.withPlayers
                                   (mapSet (socketId s) p (Game.players st))
                                   st) in
                    let w := emit (Room (socketId s)) (PlayerLocked optionId)
                                  (store a st w) in
                    maybeEndEarly a w
              end
          end
      end
  end.

(** The body of the loop of the ['disconnect'] handler, over the entries
    of [games] in insertion order; both branches end in [break]. *)
Fixpoint disconnectLoop (s : Socket) (entries : list (string * nat))
    (w : World) : Outcome World :=
  match entries with
  | [] => Ok w
  | (gameId, a) :: rest =>
      match heap w !! a with
      | None => OutOfModel
      | Some st =>
          if String.eqb (Game.hostSocketId st) (socketId s)
          then
            let w := emit (Room (Game.id st)) GameCancelled w in
            Ok (withGames (mapDelete gameId (games w)) w)
          else if mapHas (socketId s) (Game.players st)
          then
            let st := Game.withPlayers
                        (mapDelete (socketId s) (Game.players st)) st in
            let w := broadcastLobby st (store a st w) in
            match Game.round st with
            | Some r =>
                if (length (Game.players st) =? 0)%nat
                then endRound a (clearTimeout (Round.timer r) w)
                else Ok w
            | None => Ok w
            end
          else disconnectLoop s rest w
      end
  end.

Definition onDisconnect (s : Socket) (w : World) : Outcome World :=
  disconnectLoop s (games w) w.

(** [wrapRateLimit(handler, eventName)]; [ack] says whether the last
    argument of the event is a function. *)
Definition wrapRateLimit (s : Socket) (now : Z) (ack : bool)
    (handler : World -> Outcome World) (w : World) : Outcome World :=
  let (admitted, m) := rateLimit (address s) now (rateLimitMap w) in
  let w := withRateLimitMap m w in
  if negb admitted
  then Ok (reply ack s (AckError "Rate limit exceeded") w)
  else handler w.

(** The callback of a round timer. A handle that is not pending fires
    nothing. *)
Definition timerFires (t : nat) (w : World) : Outcome World :=
  match timers w !! t with
  | None => Ok w
  | Some a => endRound a (clearTimeout t w)
  end.

(** ** Events and runs *)

Inductive Request : Type :=
  | HostCreateGame (payload : JSON) (newId : string) (rands : list Z)
  | HostStartGame (gameId : JSON)
  | HostNext (gameId : JSON)
  | PlayerJoin (gameId : JSON) (name : string)
  | PlayerAnswer (gameId questionId optionId : JSON).

Inductive Event : Type :=
  | Incoming (s : Socket) (now : Z) (ack : bool) (r : Request)
  | Disconnect (s : Socket)
  | TimerFires (t : nat).

Definition handle (s : Socket) (now : Z) (ack : bool) (r : Request)
    : World -> Outcome World :=
  match r with
  | HostCreateGame payload newId rands => host_createGame s payload ack newId rands
  | HostStartGame gameId => host_startGame s gameId now
  | HostNext gameId => host_next s gameId now
  | PlayerJoin gameId name => player_join s gameId name ack
  | PlayerAnswer gameId questionId optionId =>
      player_answer s gameId questionId optionId now
  end.

Definition step (w : World) (ev : Event) : Outcome World :=
  match ev with
  | Incoming s now ack r => wrapRateLimit s now ack (handle s now ack r) w
  | Disconnect s => onDisconnect s w
  | TimerFires t => timerFires t w
  end.

Fixpoint run (w : World) (evs : list Event) : Outcome World :=
  match evs with
  | [] => Ok w
  | ev :: rest => w' ← step w ev; run w' rest
  end.

(** The states the process can be in. *)
Inductive reachable : World -> Prop :=
  | reachable_init : reachable initialWorld
  | reachable_step w ev w' :
      reachable w -> step w ev = Ok w' -> reachable w'.

(** ** Observations on the message log *)

Definition isReveal (e : Dest * Message) : bool :=
  match e.2 with
  | QuestionReveal _ _ _ _ => true
  | _ => false
  end.

(** The number of ['question:reveal'] broadcasts in a log. *)
Definition reveals (log : list (Dest * Message)) : nat :=
  length (filter (fun e => isReveal e = true) log).

(** The score of the player behind socket [k], [0] when there is none. *)
Definition scoreOf (k : string) (st : Game.t) : Z :=
  match lookupKey k (Game.players st) with
  | Some p => Player.score p
  | None => 0
  end.

(** The world that [endRound] leaves when a round is active. *)
Definition afterEndRound (a : nat) (st : Game.t) (r : Round.t)
    (q : Question.t) (w : World) : World :=
  let scored := Game.withPlayers
                  (map (fun e => (e.1, scorePlayer q r e.2)) (Game.players st))
                  st in
  mkWorld (games w)
    (<[a := Game.withRound None scored]> (heap w))
    (delete (Round.timer r) (timers w))
    (nextTimer w) (rateLimitMap w)
    (outbox w
     ++ [(Room (Game.id st),
          QuestionReveal (Question.correctOptionIds q) (Game.currentIndex st)
            (Z.of_nat (length (Game.questions st)))
            (getPublicLeaderboard scored));
         (Room (Game.hostSocketId st), HostCanAdvance)])%list.

(** ** Sample data *)

Definition sampleQuestion : Question.t :=
  Question.mk "q1" 0 "Capital of France?" JNull 20
    [JObj [("id", JStr "a"); ("label", JStr "Paris")];
     JObj [("id", JStr "b"); ("label", JStr "Rome")]]
    ["a"].

(** The round of [sampleQuestion] opened at time 1000. *)
Definition sampleRound : Round.t := Round.mk 1000 21000 0 [].

(** One player, who chose ["a"] five seconds into the round. *)
Definition sampleRoundGame : Game.t :=
  Game.mk "ABCD" "host" (JStr "Capitals") [sampleQuestion]
    [("p1", Player.mk "Ann" 0 (Some 6000) (JStr "a") false)]
    true 0 (Some sampleRound).

Definition sampleRoundWorld : World :=
  mkWorld [("ABCD", 0%nat)] [sampleRoundGame] {[ 0%nat := 0%nat ]} 1 ∅ [].

(** ** Runs of the rate limiter *)

(** The verdicts of [rateLimit] on a sequence of events, each given by its
    source address and its time. *)
Fixpoint verdicts (evs : list (string * Z)) (m : gmap string (list Z))
    : list bool :=
  match evs with
  | [] => []
  | (ip, now) :: rest =>
      let (admitted, m') := rateLimit ip now m in
      admitted :: verdicts rest m'
  end.

(** How many of the first [i] events of [evs] come from [ip]. *)
Definition priorEvents (ip : string) (i : nat) (evs : list (string * Z)) : nat :=
  length (filter (fun e => e.1 = ip) (take i evs)).


(** ** Invariants *)

(** What a handler that neither creates a session nor advances it may do
    to a state object: players change, the round is kept or cleared. *)
Definition sameShape (st st' : Game.t) : Prop :=
  Game.id st' = Game.id st
  /\ Game.hostSocketId st' = Game.hostSocketId st
  /\ Game.questions st' = Game.questions st
  /\ Game.currentIndex st' = Game.currentIndex st
  /\ Game.started st' = Game.started st
  /\ match Game.round st' with
     | None => True
     | Some r' => exists r, Game.round st = Some r /\ Round.timer r' = Round.timer r
     end.

(** [w'] comes from [w] without a new session, a new timer or an advance. *)
Definition evolves (w w' : World) : Prop :=
  (forall e, In e (games w') -> In e (games w))
  /\ length (heap w') = length (heap w)
  /\ (forall a st st',
        heap w !! a = Some st -> heap w' !! a = Some st' -> sameShape st st')
  /\ nextTimer w' = nextTimer w
  /\ (forall t a, timers w' !! t = Some a -> timers w !! t = Some a).

(** What holds of every state object, in or out of the registry; [n] is
    the next timer handle. *)
Definition GameInv (n : nat) (st : Game.t) : Prop :=
  -1 <= Game.currentIndex st
  /\ (Game.currentIndex st = -1 ->
      Game.started st = false /\ Game.round st = None)
  /\ (forall r, Game.round st = Some r -> (Round.timer r < n)%nat)
  /\ Forall (fun q => 5 <= Question.timeLimitSeconds q <= 90) (Game.questions st).

Definition WorldInv (w : World) : Prop :=
  (forall a st, heap w !! a = Some st -> GameInv (nextTimer w) st)
  /\ (forall k a, In (k, a) (games w) ->
        exists st, heap w !! a = Some st /\ Game.id st = k
                   /\ Game.currentIndex st < Z.of_nat (length (Game.questions st)))
  /\ (forall t a, timers w !! t = Some a ->
        (t < nextTimer w)%nat /\ (a < length (heap w))%nat).

(** ** Sample runs *)

Definition sampleQuiz : JSON :=
  JObj [("title", JStr "Capitals");
        ("questions",
         JArr [JObj [("id", JStr "q1");
                     ("text", JStr "Capital of France?");
                     ("options",
                      JArr [JObj [("id", JStr "a"); ("label", JStr "Paris")];
                            JObj [("id", JStr "b"); ("label", JStr "Rome")]]);
                     ("correctOptionIds", JArr [JStr "a"]);
                     ("timeLimitSeconds", JNum 20)]])].

Definition hostSocket : Socket := mkSocket "host" "10.0.0.1".
Definition annSocket : Socket := mkSocket "ann" "10.0.0.2".
Definition bobSocket : Socket := mkSocket "bob" "10.0.0.3".

(** The host creates the quiz as game ["ABCD"]; Ann joins. *)
Definition lobbyRun : list Event :=
  [Incoming hostSocket 1000 true (HostCreateGame sampleQuiz "ABCD" [0]);
   Incoming annSocket 2000 true (PlayerJoin (JStr "ABCD") "Ann")].

(** The game is started: the round of its only question is open. *)
Definition startedRun : list Event :=
  (lobbyRun
   ++ [Incoming hostSocket 3000 false (HostStartGame (JStr "ABCD"))])%list.

(** The round's timer fires. *)
Definition revealedRun : list Event := (startedRun ++ [TimerFires 0])%list.

(** The host sends ['host:next'] in the lobby, without starting. *)
Definition nextInLobbyRun : list Event :=
  (lobbyRun ++ [Incoming hostSocket 3000 false (HostNext (JStr "ABCD"))])%list.

(** The state object of game ["ABCD"] at the end of a run. *)
Definition sessionAfter (evs : list Event) : option Game.t :=
  match run initialWorld evs with
  | Ok w =>
      match lookupKey "ABCD" (games w) with
      | Some a => heap w !! a
      | None => None
      end
  | _ => None
  end.

(** The world at the end of a run from the initial world (the initial
    world itself if the run does not complete). *)
Definition worldAfter (evs : list Event) : World :=
  match run initialWorld evs with
  | Ok w => w
  | _ => initialWorld
  end.

Definition twoQuestionQuiz : JSON :=
  JObj [("title", JStr "Capitals");
        ("questions",
         JArr [JObj [("id", JStr "q1");
                     ("text", JStr "Capital of France?");
                     ("options",
                      JArr [JObj [("id", JStr "a"); ("label", JStr "Paris")];
                            JObj [("id", JStr "b"); ("label", JStr "Rome")]]);
                     ("correctOptionIds", JArr [JStr "a"]);
                     ("timeLimitSeconds", JNum 20)];
               JObj [("id", JStr "q2");
                     ("text", JStr "Capital of Italy?");
                     ("options",
                      JArr [JObj [("id", JStr "a"); ("label", JStr "Paris")];
                            JObj [("id", JStr "b"); ("label", JStr "Rome")]]);
                     ("correctOptionIds", JArr [JStr "b"]);
                     ("timeLimitSeconds", JNum 30)]])].

(** A two-question game with Ann and Bob, started: the first round is
    open and its timer, handle 0, is pending. *)
Definition midRoundRun : list Event :=
  [Incoming hostSocket 1000 true (HostCreateGame twoQuestionQuiz "ABCD" [0; 1]);
   Incoming annSocket 2000 true (PlayerJoin (JStr "ABCD") "Ann");
   Incoming bobSocket 2500 true (PlayerJoin (JStr "ABCD") "Bob");
   Incoming hostSocket 3000 false (HostStartGame (JStr "ABCD"))].

(** Ann answers the open question, then Bob, who has not answered,
    disconnects. *)
Definition bobLeavesRun : list Event :=
  (midRoundRun
   ++ [Incoming annSocket 5000 false
         (PlayerAnswer (JStr "ABCD") (JStr "q1") (JStr "a"));
       Disconnect bobSocket])%list.

(** The host leaves while the round is open. *)
Definition hostLeavesRun : list Event :=
  (startedRun ++ [Disconnect hostSocket])%list.

(** The host sends ['host:next'] while the round of the last question is
    open: the game is over and removed. *)
Definition nextOnLastRun : list Event :=
  (startedRun ++ [Incoming hostSocket 4000 false (HostNext (JStr "ABCD"))])%list.

(** ** When an answer is ignored *)


(** The session object once the answer [optionId] of the player [p] behind
    socket [s] is recorded. *)
Definition withAnswer (s : Socket) (optionId : JSON) (now : Z)
    (p : Player.t) (r : Round.t) (st : Game.t) : Game.t :=
  Game.withRound
    (Some (Round.mk (Round.startMs r) (Round.endMs r) (Round.timer r)
             (filter (fun k => k ≠ socketId s) (Round.awaiting r))))
    (Game.withPlayers
       (mapSet (socketId s)
          (Player.mk (Player.name p) (Player.score p) (Some now) optionId
             (Player.lastCorrect p))
          (Game.players st))
       st).



(** ** Observations on strings *)

(** Every character of [s] satisfies [P]. *)
Fixpoint everyChar (P : ascii -> bool) (s : string) : bool :=
  match s with
  | EmptyString => true
  | String c rest => P c && everyChar P rest
  end.

(** Neither ["<"] nor [">"]. *)
Definition notAngle (c : ascii) : bool :=
  negb (Ascii.eqb c "<") && negb (Ascii.eqb c ">").



(** ** Capacity and roster invariants *)

(** What every state object keeps: at most [MAX_PLAYERS_PER_GAME] players,
    one entry per socket, no negative score, time limits within 5..90. *)
Definition RosterInv (st : Game.t) : Prop :=
  (length (Game.players st) <= MAX_PLAYERS_PER_GAME)%nat
  /\ NoDup (map fst (Game.players st))
  /\ Forall (fun e => 0 <= Player.score e.2) (Game.players st)
  /\ Forall (fun q => 5 <= Question.timeLimitSeconds q <= 90) (Game.questions st).

(** The registry holds at most [MAX_GAMES] sessions, one per id. *)
Definition RegistryInv (w : World) : Prop :=
  (length (games w) <= MAX_GAMES)%nat
  /\ NoDup (map fst (games w))
  /\ Forall RosterInv (heap w).

(** ** How a session may change in one step *)

(** The id, the host and the questions stay; [started] is not unset; the
    question index stays or goes up by one. *)
Definition advances (st st' : Game.t) : Prop :=
  Game.id st' = Game.id st
  /\ Game.hostSocketId st' = Game.hostSocketId st
  /\ Game.questions st' = Game.questions st
  /\ (Game.started st = true -> Game.started st' = true)
  /\ Game.currentIndex st <= Game.currentIndex st' <= Game.currentIndex st + 1.

(** Two sources taking turns. *)
Definition mixedStream : list (string * Z) :=
  [("10.0.0.7", 1000); ("10.0.0.9", 1001); ("10.0.0.7", 1002);
   ("10.0.0.9", 1003); ("10.0.0.7", 1004)].

(** ** What a round records *)




(** * Properties *)

(** ** The quiz validator *)

Section Validator.
Import ValidatorSpec.

Lemma nonBlankString_spec v : nonBlankString v = true <-> NonEmptyTrimmed v.
Proof.
  unfold NonEmptyTrimmed. split.
  - destruct v; simpl; try discriminate. intros H. exists s. split; [done|].
    intros E. rewrite E in H. discriminate.
  - intros (s & -> & Hs). simpl. apply negb_true_iff.
    apply String.eqb_neq. exact Hs.
Qed.

Lemma record_of_field v k :
  objectLike v = true -> nonBlankString (prop k v) = true -> IsRecord v.
Proof.
  unfold IsRecord. destruct v; simpl; try discriminate; eauto.
Qed.

Lemma record_objectLike v : IsRecord v -> objectLike v = true.
Proof. intros [fs ->]. reflexivity. Qed.

Lemma forallb_spec {A} (f : A -> bool) (P : A -> Prop) l :
  (forall x, f x = true <-> P x) -> forallb f l = true <-> Forall P l.
Proof.
  intros H. induction l as [|x l IH]; simpl.
  - split; [constructor | reflexivity].
  - rewrite andb_true_iff, H, IH. split.
    + intros [? ?]. by constructor.
    + intros HF. by inversion HF.
Qed.

Lemma length_zero_nil {A} (l : list A) : (length l =? 0)%nat = false <-> l <> [].
Proof. destruct l; simpl; split; congruence. Qed.

Lemma validateOption_spec opt : validateOption opt = true <-> GoodOption opt.
Proof.
  unfold validateOption, GoodOption.
  rewrite <- !nonBlankString_spec.
  destruct (objectLike opt) eqn:E0; simpl.
  - destruct (nonBlankString (prop "id" opt)) eqn:E1; simpl.
    + destruct (nonBlankString (prop "label" opt)) eqn:E2; simpl.
      * split; [intros _|done]. eauto using record_of_field.
      * split; [done|]. by intros (_ & _ & ?).
    + split; [done|]. by intros (_ & ? & _).
  - split; [done|]. intros (Hr & _). apply record_objectLike in Hr. congruence.
Qed.

Lemma validateQuestion_spec q : validateQuestion q = true <-> GoodQuestion q.
Proof.
  unfold validateQuestion, GoodQuestion.
  rewrite <- !nonBlankString_spec.
  destruct (objectLike q) eqn:E0; simpl;
    [|split; [done|]; intros (Hr & _); apply record_objectLike in Hr; congruence].
  destruct (nonBlankString (prop "id" q)) eqn:E1; simpl;
    [|split; [done|]; by intros (_ & ? & _)].
  destruct (nonBlankString (prop "text" q)) eqn:E2; simpl;
    [|split; [done|]; by intros (_ & _ & ? & _)].
  destruct (prop "options" q) as [| | | | |opts|] eqn:E3;
    try (split; [done|]; by intros (_ & _ & _ & (? & ? & _) & _)).
  destruct (length opts <? 2)%nat eqn:E4.
  { split; [done|]. intros (_ & _ & _ & (? & [= <-] & Hl & _) & _).
    apply Nat.ltb_lt in E4. lia. }
  apply Nat.ltb_ge in E4.
  destruct (forallb validateOption opts) eqn:E5; simpl.
  2:{ split; [done|]. intros (_ & _ & _ & (? & [= <-] & _ & HF) & _).
      apply (forallb_spec _ _ _ validateOption_spec) in HF. congruence. }
  apply (forallb_spec _ _ _ validateOption_spec) in E5.
  destruct (prop "correctOptionIds" q) as [| | | | |cids|] eqn:E6;
    try (split; [done|]; by intros (_ & _ & _ & _ & (? & ? & _))).
  destruct (length cids =? 0)%nat eqn:E7.
  { split; [done|]. intros (_ & _ & _ & _ & (? & [= <-] & Hn & _)).
    apply length_zero_nil in Hn. congruence. }
  apply length_zero_nil in E7.
  rewrite (forallb_spec _ _ _ nonBlankString_spec).
  split.
  - intros HF. repeat split; eauto using record_of_field.
  - intros (_ & _ & _ & _ & (? & [= <-] & _ & HF)). exact HF.
Qed.

Lemma validateQuizPayload_spec payload :
  validateQuizPayload payload = true <-> GoodQuiz payload.
Proof.
  unfold validateQuizPayload, GoodQuiz.
  rewrite <- nonBlankString_spec.
  destruct (objectLike payload) eqn:E0; simpl;
    [|split; [done|]; intros (Hr & _); apply record_objectLike in Hr; congruence].
  destruct (prop "questions" payload) as [| | | | |qs|] eqn:E1;
    try (split; [done|]; by intros (_ & _ & (? & ? & _))).
  destruct (length qs =? 0)%nat eqn:E2.
  { split; [done|]. intros (_ & _ & (? & [= <-] & Hn & _)).
    apply length_zero_nil in Hn. congruence. }
  apply length_zero_nil in E2.
  destruct (nonBlankString (prop "title" payload)) eqn:E3; simpl;
    [|split; [done|]; by intros (_ & ? & _)].
  rewrite (forallb_spec _ _ _ validateQuestion_spec).
  split.
  - intros HF. repeat split; eauto using record_of_field.
  - intros (_ & _ & (? & [= <-] & _ & HF)). exact HF.
Qed.

Lemma danglingQuiz_not_intact : ~ ReferentiallyIntact danglingQuiz.
Proof.
  unfold ReferentiallyIntact. simpl. intros H.
  inversion H as [|? ? Hq _]; subst. inversion Hq as [|? ? Hc _]; subst.
  simpl in Hc. destruct Hc as [Hc|[Hc|[]]]; discriminate.
Qed.

End Validator.

(** ** Game creation *)

Section CreateGame.
Import ValidatorSpec.

Lemma insertSorted_elem {A} (before : A -> A -> bool) x l y :
  y ∈ insertSorted before x l -> y = x \/ y ∈ l.
Proof.
  induction l as [|z l IH]; simpl.
  - intros H. apply list_elem_of_singleton in H. by left.
  - destruct (before z x).
    + intros H. apply elem_of_cons in H as [->|H].
      * right. by left.
      * destruct (IH H) as [->|H']; [by left|right; by right].
    + intros H. apply elem_of_cons in H as [->|H]; [by left|by right].
Qed.

Lemma sortStable_elem {A} (before : A -> A -> bool) l y :
  y ∈ sortStable before l -> y ∈ l.
Proof.
  unfold sortStable. induction l as [|x l IH]; simpl; [done|].
  intros H. apply insertSorted_elem in H as [->|H]; [by left|].
  right. by apply IH.
Qed.

(** [shuffle] returns elements of its argument. *)
Lemma shuffle_elem {A} rands (arr : list A) y :
  y ∈ shuffle rands arr -> y ∈ arr.
Proof.
  unfold shuffle. intros H.
  apply list_elem_of_fmap in H as ([t v] & -> & H).
  apply sortStable_elem, elem_of_lookup_imap_1 in H as (i & v' & [= _ ->] & Hv).
  simpl. by eapply list_elem_of_lookup_2.
Qed.

Lemma makeQuestion_good dflt i q :
  GoodQuestion q ->
  is_Some (orNumber (prop "timeLimitSeconds" q) dflt) ->
  is_Some (makeQuestion dflt i q).
Proof.
  intros (_ & (qid & Hid & _) & (qtext & Htext & _)
          & (opts & Hopts & _) & (cids & Hcids & _ & Hall)) [limit Hlimit].
  unfold makeQuestion. rewrite Hid, Htext, Hopts, Hcids, Hlimit. simpl.
  assert (Hm : is_Some (mapM asString cids)).
  { apply mapM_is_Some_2. eapply Forall_impl; [exact Hall|].
    intros v (sv & -> & _). simpl. eauto. }
  destruct Hm as [correct ->]. simpl. eauto.
Qed.

(** On a payload that the validator accepts, [createGameState] has a
    value as soon as the time limits are numbers of the embedding. *)
Lemma createGameState_validated h payload g rands :
  validateQuizPayload payload = true ->
  is_Some (orNumber (prop "defaultTimeLimitSeconds" payload) 20) ->
  (forall qs q dflt,
      prop "questions" payload = JArr qs -> q ∈ qs ->
      is_Some (orNumber (prop "timeLimitSeconds" q) dflt)) ->
  is_Some (createGameState h payload g rands).
Proof.
  intros Hv [dflt Hd] Hlimits.
  apply validateQuizPayload_spec in Hv as (_ & _ & (qs & Hqs & _ & Hall)).
  unfold createGameState. rewrite Hd, Hqs. simpl.
  assert (Hm : is_Some (mapM (fun iq => makeQuestion (clampSeconds dflt) iq.1 iq.2)
                          (imap pair (shuffle rands qs)))).
  { apply mapM_is_Some_2, Forall_forall. intros [i q] Hin. simpl.
    apply elem_of_lookup_imap_1 in Hin as (i' & q' & [= -> ->] & Hq).
    apply list_elem_of_lookup_2, shuffle_elem in Hq.
    apply makeQuestion_good.
    - rewrite Forall_forall in Hall. by apply Hall.
    - by apply (Hlimits qs). }
  destruct Hm as [qs' ->]. simpl. eauto.
Qed.

End CreateGame.

(** ** Scoring *)

Section Scoring.

Lemma Qfloor_affine (r L : Z) :
  0 < L ->
  Qfloor (500 + 500 * (inject_Z r / inject_Z L))%Q = 500 + (500 * r) / L.
Proof.
  intros HL. destruct L as [|p|p]; try lia.
  unfold Qfloor, Qplus, Qmult, Qdiv, Qinv, inject_Z. simpl.
  rewrite !Pos.mul_1_l, !Z.mul_1_r.
  apply Z.div_add_l. lia.
Qed.

Lemma Qfloor_affine_spec (r L : Z) :
  0 < L ->
  Qfloor (500 + 500 * inject_Z r / inject_Z L)%Q = 500 + (500 * r) / L.
Proof.
  intros HL. destruct L as [|p|p]; try lia.
  unfold Qfloor, Qplus, Qmult, Qdiv, Qinv, inject_Z. simpl.
  rewrite !Pos.mul_1_l, !Z.mul_1_r.
  apply Z.div_add_l. lia.
Qed.

(** The points as integer arithmetic. *)
Lemma roundPoints_div s e t :
  0 < s ->
  roundPoints s e t = 500 + (500 * Z.max 0 (e - t)) / (s * 1000).
Proof. intros Hs. unfold roundPoints. apply Qfloor_affine. lia. Qed.

Lemma roundPoints_lower s e t : 0 < s -> 500 <= roundPoints s e t.
Proof.
  intros Hs. rewrite roundPoints_div by done.
  assert (0 <= (500 * Z.max 0 (e - t)) / (s * 1000)); [|lia].
  apply Z.div_pos; lia.
Qed.

Lemma roundPoints_upper s e t :
  0 < s -> e - s * 1000 <= t -> roundPoints s e t <= 1000.
Proof.
  intros Hs Ht. rewrite roundPoints_div by done.
  assert ((500 * Z.max 0 (e - t)) / (s * 1000) <= 500); [|lia].
  apply Z.div_le_upper_bound; lia.
Qed.

Lemma roundPoints_deadline s e t : 0 < s -> e <= t -> roundPoints s e t = 500.
Proof.
  intros Hs Ht. rewrite roundPoints_div by done.
  replace (Z.max 0 (e - t)) with 0 by lia. simpl.
  rewrite Z.div_0_l by lia. reflexivity.
Qed.

Lemma roundPoints_mono s e t1 t2 :
  0 < s -> t1 <= t2 -> roundPoints s e t2 <= roundPoints s e t1.
Proof.
  intros Hs Ht. rewrite !roundPoints_div by done.
  apply Z.add_le_mono_l, Z.div_le_mono; lia.
Qed.

Lemma roundPoints_strict s e t1 t2 :
  0 < s -> t1 + 2 * s <= t2 -> t2 <= e ->
  roundPoints s e t2 < roundPoints s e t1.
Proof.
  intros Hs Ht He. rewrite !roundPoints_div by done.
  replace (Z.max 0 (e - t2)) with (e - t2) by lia.
  replace (Z.max 0 (e - t1)) with (e - t1) by lia.
  assert ((500 * (e - t2)) / (s * 1000) + 1 <= (500 * (e - t1)) / (s * 1000));
    [|lia].
  rewrite <- (Z.div_add _ 1 (s * 1000)) by lia.
  apply Z.div_le_mono; lia.
Qed.

Lemma scoreIncrement_wrong s e t : scoreIncrement s e t false = 0.
Proof. reflexivity. Qed.

Lemma scoreIncrement_correct s e t :
  t <> 0 -> scoreIncrement s e (Some t) true = roundPoints s e t.
Proof.
  intros Ht. unfold scoreIncrement. simpl.
  destruct (Z.eqb_spec t 0); [done|reflexivity].
Qed.

Lemma scoreIncrement_specPoints s e t correct :
  0 < s -> t <> 0 ->
  scoreIncrement s e (Some t) correct = specPoints s e t correct.
Proof.
  intros Hs Ht. destruct correct; [|reflexivity].
  rewrite scoreIncrement_correct by done.
  unfold specPoints. rewrite roundPoints_div by done.
  symmetry. apply Qfloor_affine_spec. lia.
Qed.

End Scoring.

Section Binary64Facts.

Lemma allFrom_spec n z f :
  Binary64.allFrom n z f = true ->
  forall i, 0 <= i <= Z.of_nat n -> f (z + i) = true.
Proof.
  revert z. induction n as [|n IH]; intros z H i Hi; simpl in H.
  - replace (z + i) with z by lia. exact H.
  - apply andb_true_iff in H as [H0 H]. destruct (Z.eq_dec i 0) as [->|Hne].
    + by rewrite Z.add_0_r.
    + replace (z + i) with (z + 1 + (i - 1)) by lia. apply (IH _ H). lia.
Qed.

(** With the default limit of 20 s, the double-precision points of every
    remaining time from 0 to 20000 ms are the exact ones. *)
Lemma binary64_points_default timeRemaining :
  0 <= timeRemaining <= 20000 ->
  Binary64.roundPoints 20 timeRemaining
  = Some (roundPoints 20 timeRemaining 0).
Proof.
  intros Hr.
  assert (Hall : Binary64.allFrom (Z.to_nat 20000) 0 (Binary64.exactAt 20) = true)
    by (vm_compute; reflexivity).
  pose proof (allFrom_spec _ _ _ Hall timeRemaining) as H.
  rewrite Z2Nat.id in H by lia. specialize (H Hr).
  rewrite Z.add_0_l in H. unfold Binary64.exactAt in H.
  destruct (Binary64.roundPoints 20 timeRemaining) as [p|]; [|discriminate].
  apply Z.eqb_eq in H. rewrite roundPoints_div by lia.
  f_equal. rewrite H. f_equal. f_equal. lia.
Qed.

End Binary64Facts.

(** ** Rounds *)

Section Rounds.

Lemma heap_store_eq a st st' w :
  heap w !! a = Some st -> heap (store a st' w) !! a = Some st'.
Proof.
  intros H. unfold store. simpl.
  apply list_lookup_insert_eq. by eapply lookup_lt_Some.
Qed.

Lemma heap_store_ne a b st' w :
  a <> b -> heap (store a st' w) !! b = heap w !! b.
Proof. intros H. unfold store. simpl. by apply list_lookup_insert_ne. Qed.

Lemma store_store a st1 st2 w : store a st2 (store a st1 w) = store a st2 w.
Proof. unfold store. simpl. f_equal. apply list_insert_insert_eq. Qed.

Lemma endRound_active a st r q w :
  heap w !! a = Some st -> Game.round st = Some r ->
  currentQuestion st = Some q ->
  endRound a w = Ok (afterEndRound a st r q w).
Proof.
  intros Hst Hr Hq. unfold endRound. rewrite Hst, Hr, Hq.
  unfold afterEndRound, emit, store, clearTimeout. simpl.
  rewrite list_insert_insert_eq, <- app_assoc. reflexivity.
Qed.

Lemma endRound_idle a st w :
  heap w !! a = Some st -> Game.round st = None -> endRound a w = Ok w.
Proof. intros Hst Hr. unfold endRound. by rewrite Hst, Hr. Qed.

Lemma maybeEndEarly_idle a st w :
  heap w !! a = Some st -> Game.round st = None -> maybeEndEarly a w = Ok w.
Proof. intros Hst Hr. unfold maybeEndEarly. by rewrite Hst, Hr. Qed.

Lemma reveals_app l1 l2 : reveals (l1 ++ l2) = (reveals l1 + reveals l2)%nat.
Proof. unfold reveals. by rewrite filter_app, length_app. Qed.

Lemma lookupKey_map {A B} (f : A -> B) k (m : list (string * A)) :
  lookupKey k (map (fun e => (e.1, f e.2)) m) = f <$> lookupKey k m.
Proof.
  induction m as [|[k' v] m IH]; simpl; [done|].
  destruct (String.eqb k k'); [done|exact IH].
Qed.

(** The state object that [endRound] leaves at [a]. *)
Lemma afterEndRound_heap a st r q w :
  heap w !! a = Some st ->
  heap (afterEndRound a st r q w) !! a
  = Some (Game.withRound None
            (Game.withPlayers
               (map (fun e => (e.1, scorePlayer q r e.2)) (Game.players st))
               st)).
Proof.
  intros Hst. unfold afterEndRound. simpl. apply list_lookup_insert_eq.
  by eapply lookup_lt_Some.
Qed.

Lemma scoreOf_scored k p q r st :
  lookupKey k (Game.players st) = Some p ->
  scoreOf k (Game.withRound None
               (Game.withPlayers
                  (map (fun e => (e.1, scorePlayer q r e.2)) (Game.players st))
                  st))
  = Player.score p
    + scoreIncrement (Question.timeLimitSeconds q) (Round.endMs r)
        (Player.answeredAtMs p) (isCorrect q p).
Proof.
  intros Hk. unfold scoreOf. simpl. rewrite lookupKey_map, Hk. reflexivity.
Qed.

End Rounds.

(** ** Rate limiter *)

Section RateLimiter.










End RateLimiter.

(** ** Invariants of the reachable states *)

Section Invariants.

Lemma lookupKey_In {A} k (m : list (string * A)) v :
  lookupKey k m = Some v -> In (k, v) m.
Proof.
  induction m as [|[k' v'] m IH]; simpl; [done|].
  destruct (String.eqb_spec k k') as [->|Hne].
  - intros [= ->]. by left.
  - intros H. right. by apply IH.
Qed.

Lemma In_mapSet {A} k (v : A) m e :
  In e (mapSet k v m) -> e = (k, v) \/ In e m.
Proof.
  induction m as [|[k' v'] m IH]; simpl.
  - intros [<-|[]]. by left.
  - destruct (String.eqb k k'); simpl.
    + intros [<-|H]; [by left|right; by right].
    + intros [<-|H]; [right; by left|].
      destruct (IH H) as [->|H']; [by left|right; by right].
Qed.

Lemma In_mapDelete {A} k (m : list (string * A)) e :
  In e (mapDelete k m) -> In e m.
Proof.
  unfold mapDelete. rewrite <- !list_elem_of_In.
  intros H. by apply list_elem_of_filter in H as [_ H].
Qed.

Lemma In_mapDelete_ne {A} k (m : list (string * A)) e :
  In e (mapDelete k m) -> e.1 <> k.
Proof.
  unfold mapDelete. rewrite <- !list_elem_of_In.
  intros H. apply list_elem_of_filter in H as [H _]. congruence.
Qed.

Lemma sameShape_refl st : sameShape st st.
Proof.
  unfold sameShape. repeat split. destruct (Game.round st); eauto.
Qed.

Lemma sameShape_trans st1 st2 st3 :
  sameShape st1 st2 -> sameShape st2 st3 -> sameShape st1 st3.
Proof.
  intros (A1 & A2 & A3 & A4 & A5 & A6) (B1 & B2 & B3 & B4 & B5 & B6).
  unfold sameShape. repeat split; try congruence.
  destruct (Game.round st3) as [r3|]; [|done].
  destruct B6 as (r2 & Hr2 & Ht2). rewrite Hr2 in A6.
  destruct A6 as (r1 & Hr1 & Ht1). exists r1. split; [done|congruence].
Qed.

Lemma evolves_refl w : evolves w w.
Proof.
  unfold evolves. split; [done|]. split; [done|]. split; [|done].
  intros a st st' H1 H2. replace st' with st by congruence.
  apply sameShape_refl.
Qed.

Lemma evolves_trans w1 w2 w3 : evolves w1 w2 -> evolves w2 w3 -> evolves w1 w3.
Proof.
  intros (A1 & A2 & A3 & A4 & A5) (B1 & B2 & B3 & B4 & B5).
  unfold evolves.
  split; [eauto|]. split; [congruence|]. split; [|split; [congruence|eauto]].
  intros a st st3 H1 H3.
  destruct (heap w2 !! a) as [st2|] eqn:H2.
  - eapply sameShape_trans; eauto.
  - apply lookup_ge_None in H2. apply lookup_lt_Some in H1. lia.
Qed.

Lemma evolves_same w w' :
  games w' = games w -> heap w' = heap w -> nextTimer w' = nextTimer w ->
  timers w' = timers w -> evolves w w'.
Proof.
  intros Hg Hh Hn Ht. unfold evolves. rewrite Hg, Hh, Hn, Ht.
  apply evolves_refl.
Qed.

Lemma evolves_emit d m w : evolves w (emit d m w).
Proof. by apply evolves_same. Qed.

Lemma evolves_reply ack s m w : evolves w (reply ack s m w).
Proof. unfold reply. destruct ack; by apply evolves_same. Qed.

Lemma evolves_rateLimitMap m w : evolves w (withRateLimitMap m w).
Proof. by apply evolves_same. Qed.

Lemma evolves_clearTimeout t w : evolves w (clearTimeout t w).
Proof.
  unfold evolves, clearTimeout. simpl.
  split; [done|]. split; [done|]. split; [|split; [done|]].
  - intros a st st' H1 H2. replace st' with st by congruence.
    apply sameShape_refl.
  - intros t' a H. apply lookup_delete_Some in H. tauto.
Qed.

Lemma evolves_delete k w : evolves w (withGames (mapDelete k (games w)) w).
Proof.
  unfold evolves, withGames. simpl.
  split; [|split; [done|]; split; [|done]].
  - intros e. apply In_mapDelete.
  - intros a st st' H1 H2. replace st' with st by congruence.
    apply sameShape_refl.
Qed.

Lemma evolves_store a st st' w :
  heap w !! a = Some st -> sameShape st st' -> evolves w (store a st' w).
Proof.
  intros Hst Hss. unfold evolves, store. simpl.
  split; [done|]. split; [|split; [|done]].
  - apply length_insert.
  - intros b st1 st2 H1 H2. destruct (decide (a = b)) as [<-|Hne].
    + rewrite list_lookup_insert_eq in H2 by (by eapply lookup_lt_Some).
      congruence.
    + rewrite list_lookup_insert_ne in H2 by done.
      replace st2 with st1 by congruence. apply sameShape_refl.
Qed.

Lemma GameInv_sameShape n st st' :
  GameInv n st -> sameShape st st' -> GameInv n st'.
Proof.
  intros (G1 & G2 & G3 & G4) (S1 & S2 & S3 & S4 & S5 & S6).
  unfold GameInv. rewrite S3, S4, S5.
  split; [done|]. split; [|split; [|done]].
  - intros Hi. destruct (G2 Hi) as [Hs Hr]. split; [done|].
    destruct (Game.round st') as [r'|]; [|done].
    destruct S6 as (r & Hr' & _). congruence.
  - intros r' Hr'. rewrite Hr' in S6. destruct S6 as (r & Hr & ->). eauto.
Qed.

Lemma WorldInv_evolves w w' : WorldInv w -> evolves w w' -> WorldInv w'.
Proof.
  intros (I1 & I2 & I3) (E1 & E2 & E3 & E4 & E5).
  unfold WorldInv. rewrite E4, E2. split; [|split].
  - intros a st' Hst'.
    destruct (heap w !! a) as [st|] eqn:Hst.
    + eapply GameInv_sameShape; eauto.
    + apply lookup_ge_None in Hst. apply lookup_lt_Some in Hst'. lia.
  - intros k a Hin. destruct (I2 k a (E1 _ Hin)) as (st & Hst & Hid & Hlt).
    destruct (heap w' !! a) as [st'|] eqn:Hst'.
    + exists st'. destruct (E3 a st st' Hst Hst') as (S1 & S2 & S3 & S4 & _).
      rewrite S1, S3, S4. done.
    + apply lookup_ge_None in Hst'. apply lookup_lt_Some in Hst. lia.
  - intros t a Ht. by apply (I3 t a), E5.
Qed.


Lemma endRound_evolves a w w' : endRound a w = Ok w' -> evolves w w'.
Proof.
  unfold endRound.
  destruct (heap w !! a) as [st|] eqn:Hst; [|done].
  destruct (Game.round st) as [r|] eqn:Hr; [|intros [= <-]; apply evolves_refl].
  destruct (currentQuestion st) as [q|] eqn:Hq; [|done].
  intros [= <-].
  eapply evolves_trans; [apply (evolves_clearTimeout (Round.timer r))|].
  eapply evolves_trans.
  { eapply (evolves_store a st); [exact Hst|].
    instantiate (1 := Game.withPlayers
                        (map (fun e => (e.1, scorePlayer q r e.2)) (Game.players st))
                        st).
    unfold sameShape. simpl. rewrite Hr. repeat split; eauto. }
  eapply evolves_trans; [apply evolves_emit|].
  eapply evolves_trans; [|apply evolves_emit].
  eapply evolves_store.
  - simpl. apply list_lookup_insert_eq. by eapply lookup_lt_Some.
  - unfold sameShape. simpl. repeat split; eauto.
Qed.

Lemma maybeEndEarly_evolves a w w' : maybeEndEarly a w = Ok w' -> evolves w w'.
Proof.
  unfold maybeEndEarly.
  destruct (heap w !! a) as [st|]; [|done].
  destruct (Game.round st) as [r|]; [|intros [= <-]; apply evolves_refl].
  destruct (length (Round.awaiting r) =? 0)%nat;
    [|intros [= <-]; apply evolves_refl].
  intros H. eapply evolves_trans; [apply evolves_clearTimeout|].
  by eapply endRound_evolves.
Qed.

Lemma timerFires_evolves t w w' : timerFires t w = Ok w' -> evolves w w'.
Proof.
  unfold timerFires.
  destruct (timers w !! t) as [a|]; [|intros [= <-]; apply evolves_refl].
  intros H. eapply evolves_trans; [apply evolves_clearTimeout|].
  by eapply endRound_evolves.
Qed.

Lemma getGame_Some gameId w a st :
  getGame gameId w = Some (a, st) ->
  exists k, gameId = JStr k /\ lookupKey k (games w) = Some a
            /\ heap w !! a = Some st.
Proof.
  unfold getGame. destruct gameId as [| | | |k| |]; try done.
  destruct (lookupKey k (games w)) as [a'|] eqn:Hk; [|done].
  destruct (heap w !! a') as [st'|] eqn:Hst; [|done].
  intros [= <- <-]. eauto.
Qed.

Lemma player_join_evolves s gameId name ack w w' :
  player_join s gameId name ack w = Ok w' -> evolves w w'.
Proof.
  unfold player_join.
  destruct (getGame gameId w) as [[a st]|] eqn:Hg;
    [|intros [= <-]; apply evolves_reply].
  apply getGame_Some in Hg as (k & _ & _ & Hst).
  destruct (Game.started st); [intros [= <-]; apply evolves_reply|].
  destruct (MAX_PLAYERS_PER_GAME <=? length (Game.players st))%nat;
    [intros [= <-]; apply evolves_reply|].
  intros [= <-].
  eapply evolves_trans; [|apply evolves_emit].
  eapply evolves_trans; [|apply evolves_reply].
  eapply evolves_store; [exact Hst|].
  unfold sameShape. simpl. repeat split. destruct (Game.round st); eauto.
Qed.

Lemma player_answer_evolves s gameId questionId optionId now w w' :
  player_answer s gameId questionId optionId now w = Ok w' -> evolves w w'.
Proof.
  unfold player_answer.
  destruct (getGame gameId w) as [[a st]|] eqn:Hg;
    [|intros [= <-]; apply evolves_refl].
  apply getGame_Some in Hg as (k & _ & _ & Hst).
  destruct (Game.round st) as [r|] eqn:Hr; [|intros [= <-]; apply evolves_refl].
  destruct (lookupKey (socketId s) (Game.players st)) as [p|];
    [|intros [= <-]; apply evolves_refl].
  destruct (currentQuestion st) as [q|]; [|intros [= <-]; apply evolves_refl].
  destruct (negb (strictEqStr (Question.id q) questionId));
    [intros [= <-]; apply evolves_refl|].
  destruct (notNullish (Player.selectedOptionId p));
    [intros [= <-]; apply evolves_refl|].
  intros H. apply maybeEndEarly_evolves in H.
  eapply evolves_trans; [|exact H].
  eapply evolves_trans; [|apply evolves_emit].
  eapply evolves_store; [exact Hst|].
  unfold sameShape. simpl. repeat split. rewrite Hr. eauto.
Qed.

Lemma disconnectLoop_evolves s entries w w' :
  disconnectLoop s entries w = Ok w' -> evolves w w'.
Proof.
  induction entries as [|[gameId a] rest IH]; simpl;
    [intros [= <-]; apply evolves_refl|].
  destruct (heap w !! a) as [st|] eqn:Hst; [|done].
  destruct (String.eqb (Game.hostSocketId st) (socketId s)).
  { intros [= <-]. eapply evolves_trans; [apply evolves_emit|].
    apply (evolves_delete gameId (emit _ _ w)). }
  destruct (mapHas (socketId s) (Game.players st)); [|exact IH].
  assert (Hev : evolves w
            (broadcastLobby
               (Game.withPlayers (mapDelete (socketId s) (Game.players st)) st)
               (store a
                  (Game.withPlayers (mapDelete (socketId s) (Game.players st)) st)
                  w))).
  { eapply evolves_trans; [|apply evolves_emit].
    eapply evolves_store; [exact Hst|].
    unfold sameShape. simpl. repeat split. destruct (Game.round st); eauto. }
  simpl. destruct (Game.round st) as [r|]; [|by intros [= <-]].
  destruct (length (mapDelete (socketId s) (Game.players st)) =? 0)%nat;
    [|by intros [= <-]].
  intros H. apply endRound_evolves in H.
  eapply evolves_trans; [exact Hev|].
  eapply evolves_trans; [apply evolves_clearTimeout|exact H].
Qed.

Lemma clampSeconds_range x : 5 <= clampSeconds x <= 90.
Proof. unfold clampSeconds. lia. Qed.

Lemma makeQuestion_limit dflt i q qq :
  makeQuestion dflt i q = Some qq ->
  5 <= Question.timeLimitSeconds qq <= 90.
Proof.
  unfold makeQuestion. intros H. simplify_option_eq.
  simpl. apply clampSeconds_range.
Qed.

Lemma createGameState_fresh h payload g rands st :
  createGameState h payload g rands = Some st ->
  Game.id st = g /\ Game.hostSocketId st = h
  /\ Game.players st = [] /\ Game.started st = false
  /\ Game.currentIndex st = -1 /\ Game.round st = None
  /\ Forall (fun q => 5 <= Question.timeLimitSeconds q <= 90) (Game.questions st).
Proof.
  unfold createGameState. intros H. simplify_option_eq.
  simpl. repeat split.
  match goal with
  | Hm : mapM _ _ = Some ?l |- Forall _ ?l =>
      apply mapM_Some in Hm; induction Hm; constructor;
        eauto using makeQuestion_limit
  end.
Qed.

Lemma GameInv_mono n n' st : (n <= n')%nat -> GameInv n st -> GameInv n' st.
Proof.
  intros Hn (G1 & G2 & G3 & G4). unfold GameInv.
  split; [done|]. split; [done|]. split; [|done].
  intros r Hr. specialize (G3 r Hr). lia.
Qed.

Lemma host_createGame_inv s payload ack newId rands w w' :
  WorldInv w ->
  host_createGame s payload ack newId rands w = Ok w' -> WorldInv w'.
Proof.
  intros Hinv. unfold host_createGame.
  destruct (MAX_GAMES <=? length (games w))%nat.
  { intros [= <-]. eapply WorldInv_evolves; [exact Hinv|apply evolves_reply]. }
  destruct (negb (validateQuizPayload payload)).
  { intros [= <-]. eapply WorldInv_evolves; [exact Hinv|apply evolves_reply]. }
  destruct (createGameState (socketId s) payload newId rands) as [st|] eqn:Hc;
    [|done].
  apply createGameState_fresh in Hc as (Hid & _ & _ & Hs & Hi & Hr & Hl).
  destruct Hinv as (I1 & I2 & I3).
  intros [= <-].
  assert (Hheap : heap (broadcastLobby st
                     (reply ack s (AckCreated (Game.id st))
                        (withGames (mapSet (Game.id st) (length (heap w)) (games w))
                           (alloc st w).2)))
                  = (heap w ++ [st])%list).
  { unfold reply. by destruct ack. }
  assert (Hgames : games (broadcastLobby st
                     (reply ack s (AckCreated (Game.id st))
                        (withGames (mapSet (Game.id st) (length (heap w)) (games w))
                           (alloc st w).2)))
                  = mapSet (Game.id st) (length (heap w)) (games w)).
  { unfold reply. by destruct ack. }
  assert (Htimers : timers (broadcastLobby st
                     (reply ack s (AckCreated (Game.id st))
                        (withGames (mapSet (Game.id st) (length (heap w)) (games w))
                           (alloc st w).2)))
                  = timers w).
  { unfold reply. by destruct ack. }
  assert (Hnext : nextTimer (broadcastLobby st
                     (reply ack s (AckCreated (Game.id st))
                        (withGames (mapSet (Game.id st) (length (heap w)) (games w))
                           (alloc st w).2)))
                  = nextTimer w).
  { unfold reply. by destruct ack. }
  unfold WorldInv. simpl alloc. cbv zeta.
  change (alloc st w).2 with
    (mkWorld (games w) (heap w ++ [st]) (timers w) (nextTimer w)
       (rateLimitMap w) (outbox w)) in *.
  rewrite Hheap, Hgames, Htimers, Hnext.
  split; [|split].
  - intros a st' Hst'. apply lookup_app_Some in Hst' as [Hst'|[_ Hst']].
    + by apply (I1 a).
    + apply list_lookup_singleton_Some in Hst' as [_ <-].
      unfold GameInv. rewrite Hi, Hs, Hr. by repeat split.
  - intros k a Hin. apply In_mapSet in Hin as [[= -> ->]|Hin].
    + exists st. split; [|split; [done|rewrite Hi; lia]].
      rewrite lookup_app_r by done. by rewrite Nat.sub_diag.
    + destruct (I2 k a Hin) as (st' & Hst' & ?). exists st'.
      split; [|done]. by apply lookup_app_l_Some.
  - intros t a Ht. destruct (I3 t a Ht) as [? ?]. split; [done|].
    rewrite length_app. simpl. lia.
Qed.

(** [startQuestion] on an object that may have just been marked started:
    the object at [a] needs only the part of [GameInv] that survives the
    increment of [currentIndex]. *)
Lemma startQuestion_inv a now w w' st0 :
  heap w !! a = Some st0 ->
  -1 <= Game.currentIndex st0 ->
  (forall r, Game.round st0 = Some r -> (Round.timer r < nextTimer w)%nat) ->
  Forall (fun q => 5 <= Question.timeLimitSeconds q <= 90) (Game.questions st0) ->
  (forall b st, b <> a -> heap w !! b = Some st -> GameInv (nextTimer w) st) ->
  (forall k b, In (k, b) (games w) ->
     exists st, heap w !! b = Some st /\ Game.id st = k
                /\ Game.currentIndex st < Z.of_nat (length (Game.questions st))) ->
  (forall t b, timers w !! t = Some b ->
     (t < nextTimer w)%nat /\ (b < length (heap w))%nat) ->
  startQuestion a now w = Ok w' -> WorldInv w'.
Proof.
  intros Hst0 Hidx Htm Hlim I1 I2 I3. unfold startQuestion. rewrite Hst0.
  assert (Ha : (a < length (heap w))%nat) by (by eapply lookup_lt_Some).
  cbn [Game.questions Game.currentIndex Game.withCurrentIndex].
  destruct (Z.leb_spec (Z.of_nat (length (Game.questions st0)))
              (Game.currentIndex st0 + 1)) as [Hend|Hmore].
  - (* past the last question: the session is removed *)
    intros [= <-]. unfold WorldInv, endGame, emit, store, withGames. simpl.
    split; [|split].
    + intros b st Hb. destruct (decide (a = b)) as [<-|Hne].
      * rewrite list_lookup_insert_eq in Hb by done. injection Hb as <-.
        unfold GameInv. simpl.
        split; [lia|]. split; [intros; lia|]. split; [exact Htm|exact Hlim].
      * rewrite list_lookup_insert_ne in Hb by done. by apply (I1 b).
    + intros k b Hin.
      pose proof (In_mapDelete_ne _ _ _ Hin) as Hk. simpl in Hk.
      apply In_mapDelete in Hin.
      destruct (I2 k b Hin) as (st & Hb & Hid & Hlt).
      assert (a <> b) by (intros <-; congruence).
      exists st. by rewrite list_lookup_insert_ne.
    + intros t b Ht. rewrite length_insert. by apply I3.
  - (* a next question exists: a new round *)
    unfold currentQuestion.
    cbn [Game.questions Game.currentIndex Game.withCurrentIndex].
    destruct (Z.ltb_spec (Game.currentIndex st0 + 1) 0); [lia|].
    destruct (Game.questions st0 !! Z.to_nat (Game.currentIndex st0 + 1))
      as [q|] eqn:Hq; [|done].
    intros [= <-]. unfold WorldInv, emit, store, setTimeout. simpl.
    rewrite list_insert_insert_eq.
    split; [|split].
    + intros b st Hb. destruct (decide (a = b)) as [<-|Hne].
      * rewrite list_lookup_insert_eq in Hb by done. injection Hb as <-.
        unfold GameInv. simpl.
        split; [lia|]. split; [intros; lia|]. split; [|exact Hlim].
        intros r [= <-]. simpl. lia.
      * rewrite list_lookup_insert_ne in Hb by done.
        eapply GameInv_mono; [|by apply (I1 b)]. lia.
    + intros k b Hin. destruct (I2 k b Hin) as (st & Hb & Hid & Hlt).
      destruct (decide (a = b)) as [<-|Hne].
      * rewrite list_lookup_insert_eq by done. eexists. split; [done|].
        simpl. split; [congruence|lia].
      * exists st. by rewrite list_lookup_insert_ne.
    + intros t b Ht. rewrite length_insert.
      apply lookup_insert_Some in Ht as [[<- <-]|[_ Ht]]; [lia|].
      destruct (I3 t b Ht). lia.
Qed.

Lemma host_next_inv s gameId now w w' :
  WorldInv w -> host_next s gameId now w = Ok w' -> WorldInv w'.
Proof.
  intros Hinv. unfold host_next.
  destruct (getGame gameId w) as [[a st]|] eqn:Hg; [|by intros [= <-]].
  apply getGame_Some in Hg as (k & _ & _ & Hst).
  destruct (negb (String.eqb (Game.hostSocketId st) (socketId s)));
    [by intros [= <-]|].
  destruct Hinv as (I1 & I2 & I3).
  destruct (I1 a st Hst) as (G1 & G2 & G3 & G4).
  apply (startQuestion_inv a now w w' st); eauto.
Qed.

Lemma host_startGame_inv s gameId now w w' :
  WorldInv w -> host_startGame s gameId now w = Ok w' -> WorldInv w'.
Proof.
  intros Hinv. unfold host_startGame.
  destruct (getGame gameId w) as [[a st]|] eqn:Hg; [|by intros [= <-]].
  apply getGame_Some in Hg as (k & _ & _ & Hst).
  destruct (negb (String.eqb (Game.hostSocketId st) (socketId s))
            || Game.started st); [by intros [= <-]|].
  destruct Hinv as (I1 & I2 & I3).
  destruct (I1 a st Hst) as (G1 & G2 & G3 & G4).
  assert (Ha : (a < length (heap w))%nat) by (by eapply lookup_lt_Some).
  apply (startQuestion_inv a now _ w' (Game.withStarted true st)); simpl.
  - by apply list_lookup_insert_eq.
  - exact G1.
  - exact G3.
  - exact G4.
  - intros b st' Hne Hb. rewrite list_lookup_insert_ne in Hb by done.
    by apply (I1 b).
  - intros k' b Hin. destruct (I2 k' b Hin) as (st' & Hb & Hid & Hlt).
    destruct (decide (a = b)) as [<-|Hne].
    + rewrite list_lookup_insert_eq by done. eexists. split; [done|].
      simpl. replace st' with st in * by congruence. done.
    + exists st'. by rewrite list_lookup_insert_ne.
  - intros t b Ht. rewrite length_insert. by apply I3.
Qed.

Lemma step_inv w ev w' : WorldInv w -> step w ev = Ok w' -> WorldInv w'.
Proof.
  intros Hinv. destruct ev as [s now ack r| s | t]; simpl.
  - unfold wrapRateLimit.
    destruct (rateLimit (address s) now (rateLimitMap w)) as [admitted m].
    assert (Hinv' : WorldInv (withRateLimitMap m w)).
    { eapply WorldInv_evolves; [exact Hinv|apply evolves_rateLimitMap]. }
    destruct admitted; simpl.
    + destruct r; simpl; intros H.
      * by eapply host_createGame_inv.
      * by eapply host_startGame_inv.
      * by eapply host_next_inv.
      * eapply WorldInv_evolves; [exact Hinv'|by eapply player_join_evolves].
      * eapply WorldInv_evolves; [exact Hinv'|by eapply player_answer_evolves].
    + intros [= <-]. eapply WorldInv_evolves; [exact Hinv'|apply evolves_reply].
  - intros H. eapply WorldInv_evolves; [exact Hinv|].
    by eapply disconnectLoop_evolves.
  - intros H. eapply WorldInv_evolves; [exact Hinv|].
    by eapply timerFires_evolves.
Qed.

Lemma initialWorld_inv : WorldInv initialWorld.
Proof.
  unfold WorldInv, initialWorld. simpl. split; [|split]; try done.
Qed.

Lemma reachable_inv w : reachable w -> WorldInv w.
Proof.
  induction 1 as [|w ev w' _ IH Hstep]; [apply initialWorld_inv|].
  by eapply step_inv.
Qed.

Lemma run_reachable evs w w' : reachable w -> run w evs = Ok w' -> reachable w'.
Proof.
  revert w. induction evs as [|ev evs IH]; simpl; intros w Hr.
  - by intros [= <-].
  - destruct (step w ev) as [w1| |] eqn:Hstep; simpl; try done.
    apply IH. by eapply reachable_step.
Qed.


End Invariants.

(** ** Disconnects *)

Section Disconnect.

(** The loop passes over the sessions in which the socket plays no part. *)
Lemma disconnectLoop_skip s pre rest w :
  (forall k b, In (k, b) pre ->
     exists st, heap w !! b = Some st
                /\ Game.hostSocketId st <> socketId s
                /\ lookupKey (socketId s) (Game.players st) = None) ->
  disconnectLoop s (pre ++ rest) w = disconnectLoop s rest w.
Proof.
  induction pre as [|[k b] pre IH]; intros Hpre; [done|].
  simpl. destruct (Hpre k b (or_introl eq_refl)) as (st & Hst & Hh & Hp).
  rewrite Hst. apply String.eqb_neq in Hh. rewrite Hh.
  unfold mapHas. rewrite Hp. apply IH.
  intros k' b' Hin. apply (Hpre k' b'). by right.
Qed.

Lemma lookupKey_mapDelete {A} k (m : list (string * A)) :
  lookupKey k (mapDelete k m) = None.
Proof.
  unfold mapDelete. induction m as [|[k' v] m IH]; [done|].
  destruct (decide (k = k')) as [<-|Hne].
  - by rewrite filter_cons_False by (simpl; congruence).
  - rewrite filter_cons_True by done. simpl.
    apply String.eqb_neq in Hne. by rewrite Hne.
Qed.

Lemma lookupKey_mapDelete_ne {A} k k' (m : list (string * A)) :
  k' <> k -> lookupKey k' (mapDelete k m) = lookupKey k' m.
Proof.
  intros Hne. unfold mapDelete. induction m as [|[k0 v] m IH]; [done|].
  destruct (decide (k = k0)) as [<-|Hk].
  - rewrite filter_cons_False by (simpl; congruence). simpl.
    apply String.eqb_neq in Hne. by rewrite Hne.
  - rewrite filter_cons_True by done. simpl. by rewrite IH.
Qed.

(** The handler when the first session in which the socket takes part has
    it as a player. *)
Lemma onDisconnect_player s w pre k a post st p :
  games w = (pre ++ (k, a) :: post)%list ->
  (forall k' b, In (k', b) pre ->
     exists st', heap w !! b = Some st'
                 /\ Game.hostSocketId st' <> socketId s
                 /\ lookupKey (socketId s) (Game.players st') = None) ->
  heap w !! a = Some st ->
  Game.hostSocketId st <> socketId s ->
  lookupKey (socketId s) (Game.players st) = Some p ->
  let st1 := Game.withPlayers (mapDelete (socketId s) (Game.players st)) st in
  let w1 := broadcastLobby st1 (store a st1 w) in
  onDisconnect s w
  = match Game.round st with
    | Some r =>
        if (length (Game.players st1) =? 0)%nat
        then endRound a (clearTimeout (Round.timer r) w1)
        else Ok w1
    | None => Ok w1
    end.
Proof.
  intros Hgames Hpre Hst Hhost Hp st1 w1.
  unfold onDisconnect. rewrite Hgames, (disconnectLoop_skip s pre _ w Hpre).
  simpl. rewrite Hst. apply String.eqb_neq in Hhost. rewrite Hhost.
  unfold mapHas. rewrite Hp. reflexivity.
Qed.

End Disconnect.

(** ** Answers *)

Section Answers.

Lemma lookupKey_mapSet_eq {A} k (v : A) m : lookupKey k (mapSet k v m) = Some v.
Proof.
  induction m as [|[k' v'] m IH]; simpl.
  - by rewrite String.eqb_refl.
  - destruct (String.eqb k k') eqn:E; simpl.
    + by rewrite String.eqb_refl.
    + by rewrite E.
Qed.





(** The handler once its guards are passed. *)
Lemma player_answer_accepted s gameId questionId optionId now w a st r p q :
  getGame gameId w = Some (a, st) ->
  Game.round st = Some r ->
  lookupKey (socketId s) (Game.players st) = Some p ->
  currentQuestion st = Some q ->
  questionId = JStr (Question.id q) ->
  notNullish (Player.selectedOptionId p) = false ->
  player_answer s gameId questionId optionId now w
  = maybeEndEarly a
      (emit (Room (socketId s)) (PlayerLocked optionId)
         (store a (withAnswer s optionId now p r st) w)).
Proof.
  intros Hg Hr Hp Hq -> Hn. unfold player_answer.
  rewrite Hg, Hr, Hp, Hq, Hn. simpl. rewrite String.eqb_refl. reflexivity.
Qed.

End Answers.

(** * The claims of the specification *)

(** C1. Scoring at round end. [endRound] adds to every player's score an
    increment that depends only on the question's time limit, the round's
    end time, the player's answer time and whether the answer is correct.
    A wrong or missing answer adds 0. A correct answer stamped [ts] adds
    [floor(500 + 500 * max(0, roundEnd - ts) / (timeLimitSeconds * 1000))];
    for an answer given during the round, up to and at the deadline, that
    is between 500 and 1000, and it is 500 at the deadline. Time limits
    are positive (the server clamps them to 5..90) and [ts] is a
    [Date.now()] value, which is not 0. *)
Theorem endRound_scoring a st r q w k p :
  heap w !! a = Some st ->
  Game.round st = Some r ->
  currentQuestion st = Some q ->
  lookupKey k (Game.players st) = Some p ->
  0 < Question.timeLimitSeconds q ->
  exists w1 st1,
    endRound a w = Ok w1
    /\ heap w1 !! a = Some st1
    /\ let limit := Question.timeLimitSeconds q in
       let increment := scoreOf k st1 - Player.score p in
       increment
       = scoreIncrement limit (Round.endMs r) (Player.answeredAtMs p)
           (isCorrect q p)
       /\ (isCorrect q p = false -> increment = 0)
       /\ (forall ts,
             Player.answeredAtMs p = Some ts ->
             ts <> 0 ->
             increment = specPoints limit (Round.endMs r) ts (isCorrect q p)
             /\ (isCorrect q p = true ->
                 Round.endMs r - limit * 1000 <= ts <= Round.endMs r ->
                 500 <= increment <= 1000)
             /\ (isCorrect q p = true -> ts = Round.endMs r ->
                 increment = 500)).
Proof.
  intros Hst Hr Hq Hk Hlim.
  eexists _, _.
  split; [by apply (endRound_active a st r q)|].
  split; [by apply afterEndRound_heap|].
  cbv zeta. rewrite (scoreOf_scored k p q r st Hk).
  replace (Player.score p + _ - Player.score p)
    with (scoreIncrement (Question.timeLimitSeconds q) (Round.endMs r)
            (Player.answeredAtMs p) (isCorrect q p)) by lia.
  split; [reflexivity|].
  split; [by intros ->|].
  intros ts -> Hnz.
  split; [by apply scoreIncrement_specPoints|].
  split.
  - intros -> [Hlo Hhi]. rewrite scoreIncrement_correct by done.
    split; [by apply roundPoints_lower | by apply roundPoints_upper].
  - intros -> ->. rewrite scoreIncrement_correct by done.
    by apply roundPoints_deadline.
Qed.

(** Ann answered ["a"], the correct option, at 6000 in a 20 s round that
    ends at 21000: 15 s remain, she earns 875. *)
Lemma endRound_scoring_witness :
  exists w1 st1,
    endRound 0 sampleRoundWorld = Ok w1
    /\ heap w1 !! 0%nat = Some st1
    /\ scoreOf "p1" st1 - 0 = specPoints 20 21000 6000 true
    /\ specPoints 20 21000 6000 true = 875
    /\ 500 <= scoreOf "p1" st1 - 0 <= 1000.
Proof.
  destruct (endRound_scoring 0 sampleRoundGame sampleRound sampleQuestion
              sampleRoundWorld "p1"
              (Player.mk "Ann" 0 (Some 6000) (JStr "a") false))
    as (w1 & st1 & He & Hh & _ & _ & Hts);
    [reflexivity | reflexivity | reflexivity | reflexivity | reflexivity |].
  destruct (Hts 6000 eq_refl ltac:(discriminate)) as (Hspec & Hrange & _).
  exists w1, st1. split; [exact He|]. split; [exact Hh|].
  split; [exact Hspec|]. split; [reflexivity|].
  apply Hrange; [reflexivity|]. simpl. lia.
Defined.

(** C2. Ending a round is idempotent. For a session with an active round,
    [endRound] clears the round, cancels its timer, adds exactly one reveal
    to the log and updates every player's score once, by that player's
    increment. A second [endRound], whether called directly, by
    [maybeEndEarly] or by the round's timer, finds no round and returns the
    world as it is: still one reveal, the same scores. The disconnect of a
    player of the session does not reach [endRound] any more: it adds no
    reveal and changes no other player's score. *)
Theorem endRound_idempotent a st r q w :
  heap w !! a = Some st ->
  Game.round st = Some r ->
  currentQuestion st = Some q ->
  exists w1 st1,
    endRound a w = Ok w1
    /\ heap w1 !! a = Some st1
    /\ Game.round st1 = None
    /\ timers w1 !! Round.timer r = None
    /\ reveals (outbox w1) = S (reveals (outbox w))
    /\ (forall k p, lookupKey k (Game.players st) = Some p ->
          scoreOf k st1
          = Player.score p
            + scoreIncrement (Question.timeLimitSeconds q) (Round.endMs r)
                (Player.answeredAtMs p) (isCorrect q p))
    /\ endRound a w1 = Ok w1
    /\ maybeEndEarly a w1 = Ok w1
    /\ timerFires (Round.timer r) w1 = Ok w1
    /\ (w' ← endRound a w; endRound a w') = Ok w1
    /\ (forall s pre k post p,
          games w1 = (pre ++ (k, a) :: post)%list ->
          (forall k' b, In (k', b) pre ->
             exists st', heap w1 !! b = Some st'
                         /\ Game.hostSocketId st' <> socketId s
                         /\ lookupKey (socketId s) (Game.players st') = None) ->
          Game.hostSocketId st1 <> socketId s ->
          lookupKey (socketId s) (Game.players st1) = Some p ->
          exists w2 st2,
            onDisconnect s w1 = Ok w2
            /\ reveals (outbox w2) = reveals (outbox w1)
            /\ heap w2 !! a = Some st2
            /\ forall k', k' <> socketId s -> scoreOf k' st2 = scoreOf k' st1).
Proof.
  intros Hst Hr Hq.
  set (st1 := Game.withRound None
                (Game.withPlayers
                   (map (fun e => (e.1, scorePlayer q r e.2)) (Game.players st))
                   st)).
  assert (H1 : heap (afterEndRound a st r q w) !! a = Some st1).
  { by apply afterEndRound_heap. }
  assert (Hidle : endRound a (afterEndRound a st r q w)
                  = Ok (afterEndRound a st r q w)).
  { by apply (endRound_idle a st1). }
  exists (afterEndRound a st r q w), st1.
  rewrite (endRound_active a st r q w Hst Hr Hq).
  split; [done|]. split; [done|]. split; [done|].
  split; [unfold afterEndRound; simpl; apply lookup_delete_eq|].
  split.
  { unfold afterEndRound. simpl. rewrite reveals_app. unfold reveals at 2.
    simpl. lia. }
  split; [intros k p Hk; by apply scoreOf_scored|].
  split; [done|].
  split; [by apply (maybeEndEarly_idle a st1)|].
  split.
  { unfold timerFires, afterEndRound. simpl. by rewrite lookup_delete_eq. }
  split; [done|].
  intros s pre k post p Hgames Hpre Hhost Hp.
  rewrite (onDisconnect_player s _ pre k a post st1 p Hgames Hpre H1 Hhost Hp).
  cbn [Game.round st1 Game.withRound].
  eexists _, _. split; [reflexivity|].
  split.
  { unfold broadcastLobby, emit. simpl. rewrite reveals_app.
    unfold reveals at 2. simpl. lia. }
  split.
  { unfold broadcastLobby, emit, store. simpl. apply list_lookup_insert_eq.
    by eapply lookup_lt_Some. }
  intros k' Hk'. unfold scoreOf. simpl.
  by rewrite lookupKey_mapDelete_ne.
Qed.

(** A round in progress: one player, one question, the answer is in. *)
Lemma endRound_idempotent_witness :
  exists w1 st1,
    endRound 0 sampleRoundWorld = Ok w1
    /\ heap w1 !! 0%nat = Some st1
    /\ Game.round st1 = None
    /\ timers w1 !! 0%nat = None
    /\ reveals (outbox w1) = 1%nat
    /\ scoreOf "p1" st1 = 875
    /\ endRound 0 w1 = Ok w1
    /\ maybeEndEarly 0 w1 = Ok w1
    /\ timerFires 0 w1 = Ok w1
    /\ (w' ← endRound 0 sampleRoundWorld; endRound 0 w') = Ok w1.
Proof.
  destruct (endRound_idempotent 0 sampleRoundGame sampleRound sampleQuestion
              sampleRoundWorld)
    as (w1 & st1 & H1 & H2 & H3 & H4 & H5 & H6 & H7 & H8 & H9 & H10 & _);
    [reflexivity | reflexivity | reflexivity |].
  exists w1, st1.
  split; [exact H1|]. split; [exact H2|]. split; [exact H3|].
  split; [exact H4|]. split; [exact H5|].
  split; [exact (H6 "p1" _ eq_refl)|].
  split; [exact H7|]. split; [exact H8|]. split; [exact H9|exact H10].
Defined.

(** C3, as stated, fails. After a reveal the session has no round while
    [started] is true and [currentIndex] is 0, so "no round" is equivalent
    neither to [started = false] nor to [currentIndex = -1]. And
    ['host:next'] in the lobby opens a round while [started] is false, so
    a round does not imply [started = true]. *)
Lemma session_equivalences_fail :
  (reachable (worldAfter revealedRun)
   /\ exists st,
       sessionAfter revealedRun = Some st
       /\ Game.round st = None
       /\ Game.started st = true
       /\ Game.currentIndex st = 0
       /\ ~ (Game.started st = false <-> Game.round st = None)
       /\ ~ (Game.currentIndex st = -1 <-> Game.round st = None))
  /\ (reachable (worldAfter nextInLobbyRun)
      /\ exists st r,
          sessionAfter nextInLobbyRun = Some st
          /\ Game.round st = Some r
          /\ Game.started st = false
          /\ Game.currentIndex st = 0
          /\ ~ (Game.started st = false <-> Game.currentIndex st = -1)
          /\ ~ (Game.round st <> None -> Game.started st = true)).
Proof.
  split; split.
  - apply (run_reachable revealedRun initialWorld); [apply reachable_init|].
    vm_compute. reflexivity.
  - eexists. split; [vm_compute; reflexivity|].
    split; [reflexivity|]. split; [reflexivity|]. split; [reflexivity|].
    simpl. split; intros [_ H]; specialize (H eq_refl); discriminate.
  - apply (run_reachable nextInLobbyRun initialWorld); [apply reachable_init|].
    vm_compute. reflexivity.
  - eexists _, _. split; [vm_compute; reflexivity|].
    split; [reflexivity|]. split; [reflexivity|]. split; [reflexivity|].
    simpl. split.
    + intros [H _]. specialize (H eq_refl). discriminate.
    + intros H. assert (Hf : false = true) by (apply H; discriminate).
      discriminate.
Qed.

(** C3, amended. In every reachable state, for every session in the
    registry: [currentIndex] is at least -1; [currentIndex = -1] implies
    [started = false] and no round (so a started session, and a session
    with a round, has [currentIndex >= 0]); and [currentIndex] is below the
    number of questions, so that a session with a round has
    [0 <= currentIndex < length questions]. *)
Theorem session_invariant w k a st :
  reachable w ->
  In (k, a) (games w) ->
  heap w !! a = Some st ->
  -1 <= Game.currentIndex st
  /\ (Game.currentIndex st = -1 ->
      Game.started st = false /\ Game.round st = None)
  /\ (Game.started st = true -> 0 <= Game.currentIndex st)
  /\ (Game.round st <> None ->
      0 <= Game.currentIndex st < Z.of_nat (length (Game.questions st))).
Proof.
  intros Hreach Hin Hst.
  destruct (reachable_inv w Hreach) as (I1 & I2 & _).
  destruct (I1 a st Hst) as (G1 & G2 & _).
  destruct (I2 k a Hin) as (st' & Hst' & _ & Hlt).
  replace st' with st in * by congruence.
  split; [done|]. split; [done|]. split.
  - intros Hs. destruct (Z.eq_dec (Game.currentIndex st) (-1)) as [Hi|]; [|lia].
    destruct (G2 Hi). congruence.
  - intros Hr. destruct (Z.eq_dec (Game.currentIndex st) (-1)) as [Hi|]; [|lia].
    destruct (G2 Hi). congruence.
Qed.

Lemma session_invariant_witness :
  exists st,
    heap (worldAfter revealedRun) !! 0%nat = Some st
    /\ -1 <= Game.currentIndex st
    /\ (Game.currentIndex st = -1 ->
        Game.started st = false /\ Game.round st = None)
    /\ (Game.started st = true -> 0 <= Game.currentIndex st)
    /\ (Game.round st <> None ->
        0 <= Game.currentIndex st < Z.of_nat (length (Game.questions st))).
Proof.
  eexists. split; [vm_compute; reflexivity|].
  apply (session_invariant (worldAfter revealedRun) "ABCD" 0).
  - apply (run_reachable revealedRun initialWorld); [apply reachable_init|].
    vm_compute. reflexivity.
  - vm_compute. left. reflexivity.
  - vm_compute. reflexivity.
Defined.

(** C4, as stated, fails. Ann and Bob play; Ann answers, so only Bob is
    awaited; Bob disconnects. Bob leaves the player map, but he stays in
    the awaiting set, the round goes on and nothing is revealed. *)
Lemma disconnect_keeps_awaiting :
  exists st r,
    sessionAfter bobLeavesRun = Some st
    /\ lookupKey "bob" (Game.players st) = None
    /\ Game.round st = Some r
    /\ Round.awaiting r = ["bob"]
    /\ reveals (outbox (worldAfter bobLeavesRun)) = 0%nat.
Proof.
  eexists _, _. split; [vm_compute; reflexivity|].
  split; [reflexivity|]. split; [reflexivity|]. split; [reflexivity|].
  vm_compute. reflexivity.
Qed.

(** C4, amended. Let the first session, in registry order, in which the
    disconnecting socket is host or player be one where it is a player.
    The handler removes the player from that session's player map and
    broadcasts the roster; the round and its awaiting set are left as they
    are. If no round is active, or a player remains, nothing else happens,
    whether or not anyone is still awaited. If a round is active and no
    player remains, the round's timer is cancelled and [endRound] runs:
    the round is cleared and revealed, whatever the awaiting set holds. *)
Theorem player_disconnect s w pre k a post st p :
  games w = (pre ++ (k, a) :: post)%list ->
  (forall k' b, In (k', b) pre ->
     exists st', heap w !! b = Some st'
                 /\ Game.hostSocketId st' <> socketId s
                 /\ lookupKey (socketId s) (Game.players st') = None) ->
  heap w !! a = Some st ->
  Game.hostSocketId st <> socketId s ->
  lookupKey (socketId s) (Game.players st) = Some p ->
  let remaining := mapDelete (socketId s) (Game.players st) in
  let st1 := Game.withPlayers remaining st in
  let w1 := broadcastLobby st1 (store a st1 w) in
  lookupKey (socketId s) remaining = None
  /\ heap w1 !! a = Some st1
  /\ Game.round st1 = Game.round st
  /\ (Game.round st = None \/ remaining <> [] -> onDisconnect s w = Ok w1)
  /\ (forall r q,
        Game.round st = Some r -> remaining = [] ->
        currentQuestion st = Some q ->
        exists w2 st2,
          onDisconnect s w = Ok w2
          /\ onDisconnect s w = endRound a (clearTimeout (Round.timer r) w1)
          /\ heap w2 !! a = Some st2
          /\ Game.round st2 = None
          /\ timers w2 !! Round.timer r = None
          /\ reveals (outbox w2) = S (reveals (outbox w))).
Proof.
  intros Hgames Hpre Hst Hhost Hp remaining st1 w1.
  assert (Ha : (a < length (heap w))%nat) by (by eapply lookup_lt_Some).
  assert (Hw1 : heap w1 !! a = Some st1).
  { unfold w1, broadcastLobby, emit, store. simpl.
    by apply list_lookup_insert_eq. }
  pose proof (onDisconnect_player s w pre k a post st p
                Hgames Hpre Hst Hhost Hp) as Hloop.
  cbv zeta in Hloop. simpl in Hloop. fold remaining st1 w1 in Hloop.
  split; [apply lookupKey_mapDelete|]. split; [exact Hw1|].
  split; [reflexivity|]. split.
  - intros [Hr|Hne]; rewrite Hloop.
    + by rewrite Hr.
    + destruct (Game.round st); [|done].
      destruct remaining; [done|reflexivity].
  - intros r q Hr Hnil Hq. rewrite Hloop, Hr, Hnil. simpl.
    assert (Hc : heap (clearTimeout (Round.timer r) w1) !! a = Some st1)
      by exact Hw1.
    rewrite (endRound_active a st1 r q _ Hc Hr Hq).
    eexists _, _. split; [reflexivity|]. split; [reflexivity|].
    split; [by apply afterEndRound_heap|]. split; [reflexivity|].
    split; [unfold afterEndRound; simpl; apply lookup_delete_eq|].
    unfold afterEndRound, w1, broadcastLobby, emit. simpl.
    rewrite !reveals_app. unfold reveals at 2 3. simpl. lia.
Qed.

(** Ann is the only player of an open round and disconnects: the round is
    ended at once. *)
Lemma player_disconnect_witness :
  exists w2 st2,
    onDisconnect annSocket (worldAfter startedRun) = Ok w2
    /\ heap w2 !! 0%nat = Some st2
    /\ Game.round st2 = None
    /\ Game.players st2 = []
    /\ reveals (outbox w2) = 1%nat.
Proof.
  destruct (player_disconnect annSocket (worldAfter startedRun) [] "ABCD" 0%nat []
              (default sampleRoundGame (sessionAfter startedRun))
              (Player.mk "Ann" 0 None JNull false))
    as (_ & _ & _ & _ & H).
  - vm_compute. reflexivity.
  - intros k' b [].
  - vm_compute. reflexivity.
  - vm_compute. discriminate.
  - vm_compute. reflexivity.
  - destruct (H (Round.mk 3000 23000 0 ["ann"]) sampleQuestion)
      as (w2 & st2 & H1 & H2 & H3 & H4 & _ & H6);
      [vm_compute; reflexivity | vm_compute; reflexivity
      | vm_compute; reflexivity |].
    exists w2, st2. split; [exact H1|]. split; [exact H3|]. split; [exact H4|].
    split; [|exact H6].
    rewrite H2 in H1. vm_compute in H1. injection H1 as <-.
    vm_compute in H3. injection H3 as <-. reflexivity.
Defined.

(** C5 fails on the code. The host disconnects while a round is open: the
    session leaves the registry, but its state object keeps the round and
    the round's timer stays scheduled; when the timer fires, [endRound]
    runs on the removed session and broadcasts a reveal. When the session
    is removed by completion while a round is open (['host:next'] during
    the last question), the timer also stays scheduled, and when it fires
    [endRound] finds no current question and throws. *)
Theorem deleted_session_timer_fires :
  (reachable (worldAfter hostLeavesRun)
   /\ games (worldAfter hostLeavesRun) = []
   /\ timers (worldAfter hostLeavesRun) !! 0%nat = Some 0%nat
   /\ exists w',
       step (worldAfter hostLeavesRun) (TimerFires 0) = Ok w'
       /\ reveals (outbox w') = S (reveals (outbox (worldAfter hostLeavesRun)))
       /\ last (outbox w') = Some (Room "host", HostCanAdvance))
  /\ (reachable (worldAfter nextOnLastRun)
      /\ games (worldAfter nextOnLastRun) = []
      /\ timers (worldAfter nextOnLastRun) !! 0%nat = Some 0%nat
      /\ step (worldAfter nextOnLastRun) (TimerFires 0) = Uncaught).
Proof.
  split.
  - split.
    { apply (run_reachable hostLeavesRun initialWorld); [apply reachable_init|].
      vm_compute. reflexivity. }
    split; [vm_compute; reflexivity|]. split; [vm_compute; reflexivity|].
    eexists. split; [vm_compute; reflexivity|].
    split; vm_compute; reflexivity.
  - split.
    { apply (run_reachable nextOnLastRun initialWorld); [apply reachable_init|].
      vm_compute. reflexivity. }
    split; [vm_compute; reflexivity|]. split; vm_compute; reflexivity.
Qed.

(** C6, as stated, fails: in a 20 s round that ends at 21000, correct
    answers at 5001 and at 5002 both earn 899 points, so the earlier one
    does not earn strictly more. *)
Lemma points_not_strictly_decreasing :
  5001 < 5002
  /\ scoreIncrement 20 21000 (Some 5001) true = 899
  /\ scoreIncrement 20 21000 (Some 5002) true = 899
  /\ ~ (scoreIncrement 20 21000 (Some 5001) true
        > scoreIncrement 20 21000 (Some 5002) true).
Proof.
  split; [reflexivity|]. split; [reflexivity|]. split; [reflexivity|].
  vm_compute. intros H. discriminate H.
Qed.

(** C6, amended. With the time limit fixed, the points of a correct
    answer never increase with latency: of two correct answers to the same
    question the earlier earns at least as much as the later. They are
    strictly more when both answers come no later than the deadline and
    lie at least [2 * timeLimitSeconds] milliseconds apart (one point's
    worth of time). *)
Theorem points_nonincreasing s endMs t1 t2 :
  0 < s ->
  0 < t1 ->
  t1 <= t2 ->
  scoreIncrement s endMs (Some t2) true <= scoreIncrement s endMs (Some t1) true
  /\ (t1 + 2 * s <= t2 -> t2 <= endMs ->
      scoreIncrement s endMs (Some t2) true < scoreIncrement s endMs (Some t1) true).
Proof.
  intros Hs H1 H12.
  rewrite !scoreIncrement_correct by lia.
  split; [by apply roundPoints_mono | by apply roundPoints_strict].
Qed.

Lemma points_nonincreasing_witness :
  scoreIncrement 20 21000 (Some 6000) true <= scoreIncrement 20 21000 (Some 5001) true
  /\ (5001 + 2 * 20 <= 6000 -> 6000 <= 21000 ->
      scoreIncrement 20 21000 (Some 6000) true < scoreIncrement 20 21000 (Some 5001) true).
Proof. apply (points_nonincreasing 20 21000 5001 6000); lia. Defined.



(** C8. The validator accepts a payload exactly when it is a record with a
    title that is non-empty once trimmed and a non-empty list of
    questions, each a record with non-empty trimmed id and text, at least
    two options that are records with non-empty trimmed id and label, and a
    non-empty list of correct ids that are non-empty trimmed strings.
    Nothing ties the correct ids to the options: a quiz whose only correct
    id names no option is accepted. The validator is a function of the
    payload alone; a rejected payload leaves the server as it was, apart
    from the error answered to the sender. *)
Theorem validateQuizPayload_structural :
  (forall payload,
      validateQuizPayload payload = true <-> ValidatorSpec.GoodQuiz payload)
  /\ (validateQuizPayload ValidatorSpec.danglingQuiz = true
      /\ ~ ValidatorSpec.ReferentiallyIntact ValidatorSpec.danglingQuiz)
  /\ (forall s payload ack newId rands w,
        (length (games w) < MAX_GAMES)%nat ->
        validateQuizPayload payload = false ->
        host_createGame s payload ack newId rands w
        = Ok (reply ack s (AckError "Invalid quiz JSON format.") w)).
Proof.
  split; [exact validateQuizPayload_spec|]. split.
  - split; [reflexivity|exact danglingQuiz_not_intact].
  - intros s payload ack newId rands w Hn Hv. unfold host_createGame.
    destruct (Nat.leb_spec MAX_GAMES (length (games w))); [lia|].
    rewrite Hv. reflexivity.
Qed.

(** C9. ['host:next'] checks that the session exists and that the sender
    is its host, and nothing else: for a session in the registry and its
    recorded host the handler is [startQuestion], whatever [started] and
    [round] are. When a next question exists, a new round is opened on
    it with a fresh timer, [started] is left as it was (false in the
    lobby), and every timer that was pending is still pending: the timer
    of a round that was active is not cancelled. *)
Theorem host_next_unguarded s k now w a st :
  reachable w ->
  lookupKey k (games w) = Some a ->
  heap w !! a = Some st ->
  Game.hostSocketId st = socketId s ->
  host_next s (JStr k) now w = startQuestion a now w
  /\ (Game.currentIndex st + 1 < Z.of_nat (length (Game.questions st)) ->
      exists w' st' r',
        host_next s (JStr k) now w = Ok w'
        /\ heap w' !! a = Some st'
        /\ Game.round st' = Some r'
        /\ Game.started st' = Game.started st
        /\ Game.currentIndex st' = Game.currentIndex st + 1
        /\ Round.timer r' = nextTimer w
        /\ timers w' !! Round.timer r' = Some a
        /\ (forall t, t <> nextTimer w -> timers w' !! t = timers w !! t)
        /\ (forall r, Game.round st = Some r ->
              Round.timer r <> Round.timer r'
              /\ timers w' !! Round.timer r = timers w !! Round.timer r)).
Proof.
  intros Hreach Hk Hst Hhost.
  assert (Hnext : host_next s (JStr k) now w = startQuestion a now w).
  { unfold host_next, getGame. rewrite Hk, Hst, Hhost, String.eqb_refl.
    reflexivity. }
  split; [exact Hnext|]. intros Hmore. rewrite Hnext.
  destruct (reachable_inv w Hreach) as (I1 & _ & _).
  destruct (I1 a st Hst) as (G1 & _ & G3 & _).
  assert (Ha : (a < length (heap w))%nat) by (by eapply lookup_lt_Some).
  unfold startQuestion. rewrite Hst.
  cbn [Game.questions Game.currentIndex Game.withCurrentIndex].
  destruct (Z.leb_spec (Z.of_nat (length (Game.questions st)))
              (Game.currentIndex st + 1)); [lia|].
  unfold currentQuestion.
  cbn [Game.questions Game.currentIndex Game.withCurrentIndex].
  destruct (Z.ltb_spec (Game.currentIndex st + 1) 0); [lia|].
  destruct (lookup_lt_is_Some_2 (Game.questions st)
              (Z.to_nat (Game.currentIndex st + 1)) ltac:(lia)) as [q Hq].
  rewrite Hq. eexists _, _, _. split; [reflexivity|].
  unfold emit, store, setTimeout. simpl.
  split; [by rewrite list_insert_insert_eq, list_lookup_insert_eq|].
  split; [reflexivity|]. split; [reflexivity|]. split; [reflexivity|].
  split; [reflexivity|]. split; [by rewrite lookup_insert_eq|].
  split.
  - intros t Ht. by rewrite lookup_insert_ne.
  - intros r Hr. specialize (G3 r Hr).
    simpl. split; [lia|]. rewrite lookup_insert_ne by lia. reflexivity.
Qed.

(** The host sends ['host:next'] while the first round of a two-question
    game is open: the second round gets timer 1 and timer 0 stays
    scheduled. *)
Lemma host_next_unguarded_witness :
  exists w' st' r',
    host_next hostSocket (JStr "ABCD") 9000 (worldAfter midRoundRun) = Ok w'
    /\ heap w' !! 0%nat = Some st'
    /\ Game.round st' = Some r'
    /\ Round.timer r' = 1%nat
    /\ timers w' !! 1%nat = Some 0%nat
    /\ timers w' !! 0%nat = Some 0%nat.
Proof.
  destruct (host_next_unguarded hostSocket "ABCD" 9000 (worldAfter midRoundRun)
              0%nat (default sampleRoundGame (sessionAfter midRoundRun)))
    as [_ H].
  - apply (run_reachable midRoundRun initialWorld); [apply reachable_init|].
    vm_compute. reflexivity.
  - vm_compute. reflexivity.
  - vm_compute. reflexivity.
  - reflexivity.
  - destruct H as (w' & st' & r' & H1 & H2 & H3 & _ & _ & H6 & H7 & H8 & _);
      [vm_compute; reflexivity|].
    exists w', st', r'. split; [exact H1|]. split; [exact H2|].
    split; [exact H3|]. split; [exact H6|].
    split; [rewrite <- H7; f_equal; exact (eq_sym H6)|].
    rewrite (H8 0%nat); [vm_compute; reflexivity|vm_compute; discriminate].
Defined.



(** * Further properties of the server *)

(** ** Sorting: [shuffle] and the leaderboard *)

Section Sorting.

Lemma insertSorted_perm {A} (before : A -> A -> bool) x l :
  insertSorted before x l ≡ₚ x :: l.
Proof.
  induction l as [|y l IH]; simpl; [done|].
  destruct (before y x); [|done].
  rewrite IH. apply Permutation_swap.
Qed.

Lemma sortStable_perm {A} (before : A -> A -> bool) l :
  sortStable before l ≡ₚ l.
Proof.
  unfold sortStable. induction l as [|x l IH]; simpl; [done|].
  by rewrite insertSorted_perm, IH.
Qed.

Lemma snd_tagged {A} (f : nat -> Z) (arr : list A) :
  map snd (imap (fun i v => (f i, v)) arr) = arr.
Proof.
  revert f. induction arr as [|x arr IH]; intros f; simpl; [done|].
  f_equal. apply (IH (f ∘ S)).
Qed.

(** Insertion into a list that is in descending order of [key]. *)
Lemma insertSorted_sorted {A} (key : A -> Z) x l :
  Sorted (fun a b => key b <= key a) l ->
  Sorted (fun a b => key b <= key a)
         (insertSorted (fun y x => key x - key y <? 0) x l).
Proof.
  induction 1 as [|y l Hs IH Hhd]; simpl.
  - repeat constructor.
  - destruct (Z.ltb_spec (key x - key y) 0).
    + constructor; [exact IH|].
      destruct l as [|z l]; simpl.
      * constructor. lia.
      * destruct (Z.ltb_spec (key x - key z) 0).
        -- constructor. by inversion Hhd.
        -- constructor. lia.
    + constructor; [by constructor|]. constructor. lia.
Qed.

Lemma sortStable_sorted {A} (key : A -> Z) l :
  Sorted (fun a b => key b <= key a)
         (sortStable (fun y x => key x - key y <? 0) l).
Proof.
  unfold sortStable. induction l as [|x l IH]; simpl; [constructor|].
  by apply insertSorted_sorted.
Qed.

(** Insertion keeps the order among the elements of one key. *)
Lemma insertSorted_stable {A} (key : A -> Z) s x l :
  filter (fun e => key e = s) (insertSorted (fun y x => key x - key y <? 0) x l)
  = filter (fun e => key e = s) (x :: l).
Proof.
  induction l as [|y l IH]; simpl; [done|].
  destruct (Z.ltb_spec (key x - key y) 0); [|done].
  destruct (decide (key y = s)) as [Hy|Hy].
  - rewrite filter_cons_True by done. rewrite IH.
    rewrite (filter_cons_False _ x) by lia.
    rewrite (filter_cons_False _ x) by lia.
    by rewrite filter_cons_True.
  - rewrite filter_cons_False by done. rewrite IH.
    destruct (decide (key x = s)).
    + rewrite !(filter_cons_True _ x) by done. by rewrite filter_cons_False.
    + rewrite !(filter_cons_False _ x) by done. by rewrite filter_cons_False.
Qed.

Lemma sortStable_stable {A} (key : A -> Z) s l :
  filter (fun e => key e = s) (sortStable (fun y x => key x - key y <? 0) l)
  = filter (fun e => key e = s) l.
Proof.
  unfold sortStable. induction l as [|x l IH]; simpl; [done|].
  rewrite insertSorted_stable.
  destruct (decide (key x = s)).
  - rewrite !(filter_cons_True _ x) by done. by rewrite IH.
  - rewrite !(filter_cons_False _ x) by done. exact IH.
Qed.

End Sorting.

(** X1. [shuffle] returns a permutation of its argument, whatever the
    random numbers are: no element is lost or repeated. *)
Theorem shuffle_permutation {A} (rands : list Z) (arr : list A) :
  shuffle rands arr ≡ₚ arr.
Proof.
  unfold shuffle. rewrite sortStable_perm. by rewrite snd_tagged.
Qed.

(** X2. The public leaderboard holds one entry per player, with the
    player's name, score and last result; it is in descending order of
    score, and players with the same score stay in the order in which they
    joined. *)
Theorem leaderboard_sorted (st : Game.t) :
  let entries := map (fun e => mkEntry (Player.name e.2) (Player.score e.2)
                                       (Player.lastCorrect e.2))
                     (Game.players st) in
  getPublicLeaderboard st ≡ₚ entries
  /\ StronglySorted (fun a b => entryScore b <= entryScore a)
                    (getPublicLeaderboard st)
  /\ forall s,
       filter (fun e => entryScore e = s) (getPublicLeaderboard st)
       = filter (fun e => entryScore e = s) entries.
Proof.
  intros entries. unfold getPublicLeaderboard. fold entries.
  split; [apply sortStable_perm|]. split.
  - apply Sorted_StronglySorted; [intros a b c; lia|].
    apply (sortStable_sorted entryScore).
  - intros s. apply (sortStable_stable entryScore).
Qed.

(** ** Names *)

Section Names.

Lemma everyChar_impl (P Q : ascii -> bool) s :
  (forall c, P c = true -> Q c = true) ->
  everyChar P s = true -> everyChar Q s = true.
Proof.
  intros HPQ. induction s as [|c s IH]; simpl; [done|].
  rewrite !andb_true_iff. intros [? ?]. auto.
Qed.

Lemma isNameChar_notAngle c : isNameChar c = true -> notAngle c = true.
Proof.
  destruct c as [[] [] [] [] [] [] [] []]; vm_compute; congruence.
Qed.

Lemma keepNameChars_every s : everyChar isNameChar (keepNameChars s) = true.
Proof.
  induction s as [|c s IH]; simpl; [done|].
  destruct (isNameChar c) eqn:E; simpl; [by rewrite E|done].
Qed.

Lemma keepNameChars_id s :
  everyChar isNameChar s = true -> keepNameChars s = s.
Proof.
  induction s as [|c s IH]; simpl; [done|].
  rewrite andb_true_iff. intros [-> Hs]. by rewrite IH.
Qed.

Lemma stripTags_id s :
  everyChar notAngle s = true -> stripTags false s = s.
Proof.
  induction s as [|c s IH]; simpl; [done|].
  rewrite andb_true_iff. intros [Hc Hs].
  unfold notAngle in Hc. apply andb_true_iff in Hc as [Hc _].
  apply negb_true_iff in Hc. rewrite Hc. simpl. by rewrite IH.
Qed.

Lemma substring_every P m s :
  everyChar P s = true -> everyChar P (substring 0 m s) = true.
Proof.
  revert s. induction m as [|m IH]; intros [|c s]; simpl; try done.
  rewrite !andb_true_iff. intros [? ?]. auto.
Qed.

Lemma substring_length m s : (String.length (substring 0 m s) <= m)%nat.
Proof.
  revert s. induction m as [|m IH]; intros [|c s]; simpl; try lia.
  specialize (IH s). lia.
Qed.

Lemma substring_id m s :
  (String.length s <= m)%nat -> substring 0 m s = s.
Proof.
  revert s. induction m as [|m IH]; intros [|c s]; simpl; try done; try lia.
  intros H. rewrite IH; [done|lia].
Qed.

Lemma trimStart_every P s :
  everyChar P s = true -> everyChar P (trimStart s) = true.
Proof.
  induction s as [|c s IH]; simpl; [done|].
  destruct (isWhiteSpace c); [|done].
  rewrite andb_true_iff. intros [_ ?]. auto.
Qed.

Lemma trimEnd_every P s :
  everyChar P s = true -> everyChar P (trimEnd s) = true.
Proof.
  induction s as [|c s IH]; simpl; [done|].
  rewrite andb_true_iff. intros [Hc Hs]. specialize (IH Hs).
  destruct (trimEnd s) as [|d k].
  - destruct (isWhiteSpace c); simpl; [done|by rewrite Hc].
  - simpl in *. by rewrite Hc, IH.
Qed.

Lemma trimStart_length s : (String.length (trimStart s) <= String.length s)%nat.
Proof.
  induction s as [|c s IH]; simpl; [done|].
  destruct (isWhiteSpace c); simpl; lia.
Qed.

Lemma trimEnd_length s : (String.length (trimEnd s) <= String.length s)%nat.
Proof.
  induction s as [|c s IH]; simpl; [done|].
  destruct (trimEnd s) as [|d k].
  - destruct (isWhiteSpace c); simpl; lia.
  - simpl in *. lia.
Qed.

(** A string that is empty or starts with a character that is no white
    space. *)
Lemma trimStart_id s :
  match s with EmptyString => True | String c _ => isWhiteSpace c = false end ->
  trimStart s = s.
Proof. destruct s as [|c s]; simpl; [done|]. by intros ->. Qed.

Lemma trimStart_head s :
  match trimStart s with
  | EmptyString => True
  | String c _ => isWhiteSpace c = false
  end.
Proof.
  induction s as [|c s IH]; simpl; [done|].
  destruct (isWhiteSpace c) eqn:E; [exact IH|exact E].
Qed.

Lemma trimEnd_head s :
  match s with EmptyString => True | String c _ => isWhiteSpace c = false end ->
  match trimEnd s with
  | EmptyString => True
  | String c _ => isWhiteSpace c = false
  end.
Proof.
  destruct s as [|c s]; simpl; [done|]. intros Hc.
  destruct (trimEnd s); [by rewrite Hc|done].
Qed.

Lemma trimEnd_cons c s :
  trimEnd (String c s)
  = match trimEnd s with
    | EmptyString => if isWhiteSpace c then EmptyString else String c EmptyString
    | kept => String c kept
    end.
Proof. reflexivity. Qed.

Lemma trimEnd_idem s : trimEnd (trimEnd s) = trimEnd s.
Proof.
  induction s as [|c s IH]; [done|].
  rewrite trimEnd_cons. destruct (trimEnd s) as [|d k] eqn:E.
  - destruct (isWhiteSpace c) eqn:Hc; [done|].
    rewrite trimEnd_cons. simpl. by rewrite Hc.
  - rewrite trimEnd_cons. by rewrite IH.
Qed.

Lemma trim_idem s : trim (trim s) = trim s.
Proof.
  unfold trim.
  rewrite (trimStart_id (trimEnd (trimStart s)))
    by apply trimEnd_head, trimStart_head.
  apply trimEnd_idem.
Qed.

End Names.

(** X3. A sanitized name has at most 20 characters, all of them from the
    allowed class (letters, digits, underscore, white space and [-'.!]), so
    it contains neither ["<"] nor [">"]; it has no white space at either
    end; and sanitizing it again changes nothing. *)
Theorem sanitizeName_safe (name : string) :
  (String.length (sanitizeName name) <= 20)%nat
  /\ everyChar isNameChar (sanitizeName name) = true
  /\ everyChar notAngle (sanitizeName name) = true
  /\ trim (sanitizeName name) = sanitizeName name
  /\ sanitizeName (sanitizeName name) = sanitizeName name.
Proof.
  assert (Hlen : (String.length (sanitizeName name) <= 20)%nat).
  { unfold sanitizeName, trim.
    pose proof (trimEnd_length
                  (trimStart (substring 0 20 (keepNameChars (stripTags false name))))).
    pose proof (trimStart_length
                  (substring 0 20 (keepNameChars (stripTags false name)))).
    pose proof (substring_length 20 (keepNameChars (stripTags false name))).
    lia. }
  assert (Hchars : everyChar isNameChar (sanitizeName name) = true).
  { unfold sanitizeName, trim.
    apply trimEnd_every, trimStart_every, substring_every, keepNameChars_every. }
  assert (Hangle : everyChar notAngle (sanitizeName name) = true).
  { eapply everyChar_impl; [apply isNameChar_notAngle|exact Hchars]. }
  assert (Htrim : trim (sanitizeName name) = sanitizeName name).
  { unfold sanitizeName. apply trim_idem. }
  split; [exact Hlen|]. split; [exact Hchars|]. split; [exact Hangle|].
  split; [exact Htrim|].
  unfold sanitizeName at 1.
  rewrite (stripTags_id _ Hangle), (keepNameChars_id _ Hchars),
    (substring_id _ _ Hlen).
  exact Htrim.
Qed.

(** ** Game creation *)

Section GameCreation.





End GameCreation.



(** ** Capacity *)

Section Capacity.

Lemma lookupKey_None {A} k (m : list (string * A)) :
  lookupKey k m = None <-> k ∉ map fst m.
Proof.
  induction m as [|[k' v] m IH]; simpl.
  - split; [intros _; apply not_elem_of_nil|done].
  - rewrite not_elem_of_cons. destruct (String.eqb_spec k k') as [->|Hne].
    + split; [done|]. intros [? _]. done.
    + rewrite IH. tauto.
Qed.

Lemma mapSet_present {A} k (v : A) m :
  is_Some (lookupKey k m) -> map fst (mapSet k v m) = map fst m.
Proof.
  induction m as [|[k' v'] m IH]; simpl; [by intros [? ?]|].
  destruct (String.eqb_spec k k') as [->|Hne]; simpl; [done|].
  intros H. by rewrite IH.
Qed.

Lemma mapSet_absent {A} k (v : A) m :
  lookupKey k m = None -> mapSet k v m = (m ++ [(k, v)])%list.
Proof.
  induction m as [|[k' v'] m IH]; simpl; [done|].
  destruct (String.eqb k k'); [done|]. intros H. by rewrite IH.
Qed.

Lemma mapSet_length {A} k (v : A) m :
  (length (mapSet k v m) <= S (length m))%nat.
Proof.
  destruct (lookupKey k m) as [x|] eqn:E.
  - rewrite <- (length_map fst (mapSet k v m)), mapSet_present by eauto.
    rewrite length_map. lia.
  - rewrite mapSet_absent by done. rewrite length_app. simpl. lia.
Qed.

Lemma mapSet_length_present {A} k (v : A) m :
  is_Some (lookupKey k m) -> length (mapSet k v m) = length m.
Proof.
  intros H. rewrite <- (length_map fst (mapSet k v m)), mapSet_present by done.
  apply length_map.
Qed.

Lemma mapSet_NoDup {A} k (v : A) m :
  NoDup (map fst m) -> NoDup (map fst (mapSet k v m)).
Proof.
  intros Hnd. destruct (lookupKey k m) as [x|] eqn:E.
  - rewrite mapSet_present by eauto. done.
  - rewrite mapSet_absent by done. rewrite map_app. simpl.
    apply NoDup_app. split; [done|]. split.
    + intros x Hx Hin. apply list_elem_of_singleton in Hin as ->.
      by apply lookupKey_None in E.
    + apply NoDup_singleton.
Qed.

Lemma mapSet_Forall {A} (P : string * A -> Prop) k v m :
  Forall P m -> P (k, v) -> Forall P (mapSet k v m).
Proof.
  intros Hm Hv. induction Hm as [|[k' v'] m Hx Hm IH]; simpl.
  - by constructor.
  - destruct (String.eqb k k'); constructor; done.
Qed.

Lemma mapDelete_length {A} k (m : list (string * A)) :
  (length (mapDelete k m) <= length m)%nat.
Proof. unfold mapDelete. apply length_filter. Qed.

Lemma mapDelete_NoDup {A} k (m : list (string * A)) :
  NoDup (map fst m) -> NoDup (map fst (mapDelete k m)).
Proof.
  unfold mapDelete. induction m as [|[k' v] m IH]; simpl; [done|].
  intros Hnd. apply NoDup_cons in Hnd as [Hk Hnd].
  destruct (decide (k ≠ k')).
  - rewrite filter_cons_True by done. simpl. apply NoDup_cons. split; [|auto].
    intros Hin. apply Hk.
    apply list_elem_of_fmap in Hin as (e & -> & He).
    apply list_elem_of_filter in He as [_ He].
    apply list_elem_of_fmap. eauto.
  - rewrite filter_cons_False by done. auto.
Qed.

Lemma mapDelete_Forall {A} (P : string * A -> Prop) k m :
  Forall P m -> Forall P (mapDelete k m).
Proof.
  unfold mapDelete. intros H. induction H as [|[k' v] m Hx Hm IH]; [done|].
  destruct (decide (k ≠ k')).
  - rewrite filter_cons_True by done. by constructor.
  - by rewrite filter_cons_False.
Qed.

Lemma map_fst_values {A B} (f : A -> B) (m : list (string * A)) :
  map fst (map (fun e => (e.1, f e.2)) m) = map fst m.
Proof. induction m as [|[k v] m IH]; simpl; [done|]. by rewrite IH. Qed.

Lemma scoreIncrement_nonneg s e t c : 0 < s -> 0 <= scoreIncrement s e t c.
Proof.
  intros Hs. unfold scoreIncrement.
  destruct (c && truthyTime t); [|done].
  pose proof (roundPoints_lower s e (default 0 t) Hs). lia.
Qed.

Lemma RosterInv_players st ps :
  RosterInv st ->
  (length ps <= MAX_PLAYERS_PER_GAME)%nat ->
  NoDup (map fst ps) ->
  Forall (fun e => 0 <= Player.score e.2) ps ->
  RosterInv (Game.withPlayers ps st).
Proof. intros (_ & _ & _ & Hq) ? ? ?. by repeat split. Qed.

Lemma RosterInv_scored q r st :
  RosterInv st -> 0 < Question.timeLimitSeconds q ->
  RosterInv (Game.withPlayers
               (map (fun e => (e.1, scorePlayer q r e.2)) (Game.players st)) st).
Proof.
  intros Hinv Hq. pose proof Hinv as (Hl & Hnd & Hs & _).
  apply RosterInv_players; [done| | |].
  - by rewrite length_map.
  - by rewrite map_fst_values.
  - apply Forall_fmap. eapply Forall_impl; [exact Hs|].
    intros [k p] Hp. simpl in *.
    pose proof (scoreIncrement_nonneg (Question.timeLimitSeconds q)
                  (Round.endMs r) (Player.answeredAtMs p) (isCorrect q p) Hq).
    lia.
Qed.

Lemma RosterInv_reset st :
  RosterInv st ->
  RosterInv (Game.withPlayers
               (map (fun e => (e.1, resetPlayer e.2)) (Game.players st)) st).
Proof.
  intros Hinv. pose proof Hinv as (Hl & Hnd & Hs & _).
  apply RosterInv_players; [done| | |].
  - by rewrite length_map.
  - by rewrite map_fst_values.
  - apply Forall_fmap. eapply Forall_impl; [exact Hs|]. by intros [k p].
Qed.

Lemma RegistryInv_same w w' :
  games w' = games w -> heap w' = heap w -> RegistryInv w -> RegistryInv w'.
Proof. unfold RegistryInv. by intros -> ->. Qed.

Lemma RegistryInv_emit d m w : RegistryInv w -> RegistryInv (emit d m w).
Proof. by apply RegistryInv_same. Qed.

Lemma RegistryInv_clearTimeout t w :
  RegistryInv w -> RegistryInv (clearTimeout t w).
Proof. by apply RegistryInv_same. Qed.

Lemma RegistryInv_rateLimitMap m w :
  RegistryInv w -> RegistryInv (withRateLimitMap m w).
Proof. by apply RegistryInv_same. Qed.

Lemma RegistryInv_reply ack s m w : RegistryInv w -> RegistryInv (reply ack s m w).
Proof. unfold reply. destruct ack; [|done]. by apply RegistryInv_same. Qed.

Lemma RegistryInv_store a st w :
  RegistryInv w -> RosterInv st -> RegistryInv (store a st w).
Proof.
  intros (? & ? & Hh) Hst. unfold RegistryInv, store. simpl.
  split; [done|]. split; [done|]. by apply Forall_insert.
Qed.

Lemma RegistryInv_delete k w :
  RegistryInv w -> RegistryInv (withGames (mapDelete k (games w)) w).
Proof.
  intros (Hl & Hnd & Hh). unfold RegistryInv, withGames. simpl.
  split; [pose proof (mapDelete_length k (games w)); lia|].
  split; [by apply mapDelete_NoDup|done].
Qed.

Lemma RegistryInv_heap w a st :
  RegistryInv w -> heap w !! a = Some st -> RosterInv st.
Proof. intros (_ & _ & Hh) Hst. by eapply Forall_lookup_1. Qed.

Lemma currentQuestion_limit st q :
  RosterInv st -> currentQuestion st = Some q ->
  0 < Question.timeLimitSeconds q.
Proof.
  intros (_ & _ & _ & Hq). unfold currentQuestion.
  destruct (Game.currentIndex st <? 0); [done|]. intros Hl.
  pose proof (Forall_lookup_1 _ _ _ _ Hq Hl) as H. simpl in H. lia.
Qed.

Lemma RosterInv_round st r : RosterInv st -> RosterInv (Game.withRound r st).
Proof. by intros (? & ? & ? & ?). Qed.

Lemma RosterInv_index st i : RosterInv st -> RosterInv (Game.withCurrentIndex i st).
Proof. by intros (? & ? & ? & ?). Qed.

Lemma RosterInv_started st b : RosterInv st -> RosterInv (Game.withStarted b st).
Proof. by intros (? & ? & ? & ?). Qed.

Lemma endRound_registry a w w' :
  RegistryInv w -> endRound a w = Ok w' -> RegistryInv w'.
Proof.
  intros Hinv. unfold endRound.
  destruct (heap w !! a) as [st|] eqn:Hst; [|done].
  destruct (Game.round st) as [r|]; [|by intros [= <-]].
  destruct (currentQuestion st) as [q|] eqn:Hq; [|done].
  intros [= <-].
  pose proof (RegistryInv_heap w a st Hinv Hst) as Hr.
  pose proof (currentQuestion_limit st q Hr Hq) as Hlim.
  destruct Hinv as (Hl & Hnd & Hh).
  unfold RegistryInv, emit, store, clearTimeout. simpl.
  split; [done|]. split; [done|].
  apply Forall_insert; [apply Forall_insert; [done|]|].
  - by apply RosterInv_scored.
  - apply RosterInv_round. by apply RosterInv_scored.
Qed.

Lemma maybeEndEarly_registry a w w' :
  RegistryInv w -> maybeEndEarly a w = Ok w' -> RegistryInv w'.
Proof.
  intros Hinv. unfold maybeEndEarly.
  destruct (heap w !! a) as [st|]; [|done].
  destruct (Game.round st) as [r|]; [|by intros [= <-]].
  destruct (length (Round.awaiting r) =? 0)%nat; [|by intros [= <-]].
  apply endRound_registry. by apply RegistryInv_clearTimeout.
Qed.

Lemma startQuestion_registry a now w w' :
  RegistryInv w -> startQuestion a now w = Ok w' -> RegistryInv w'.
Proof.
  intros Hinv. unfold startQuestion.
  destruct (heap w !! a) as [st|] eqn:Hst; [|done].
  pose proof (RegistryInv_heap w a st Hinv Hst) as Hr.
  destruct Hinv as (Hl & Hnd & Hh).
  destruct (Z.of_nat (length (Game.questions
              (Game.withCurrentIndex (Game.currentIndex st + 1) st)))
            <=? Game.currentIndex
                  (Game.withCurrentIndex (Game.currentIndex st + 1) st)).
  - intros [= <-]. unfold RegistryInv, endGame, withGames, emit, store. simpl.
    split; [pose proof (mapDelete_length (Game.id st) (games w)); lia|].
    split; [by apply mapDelete_NoDup|].
    apply Forall_insert; [done|]. by apply RosterInv_index.
  - destruct (currentQuestion _) as [q|]; [|done].
    intros [= <-]. unfold RegistryInv, emit, store, setTimeout. simpl.
    split; [done|]. split; [done|].
    apply Forall_insert; [apply Forall_insert; [done|]|].
    + by apply RosterInv_index.
    + apply RosterInv_round.
      apply (RosterInv_reset (Game.withCurrentIndex _ st)).
      by apply RosterInv_index.
Qed.

Lemma host_createGame_registry s payload ack newId rands w w' :
  RegistryInv w ->
  host_createGame s payload ack newId rands w = Ok w' -> RegistryInv w'.
Proof.
  intros Hinv. unfold host_createGame.
  destruct (Nat.leb_spec MAX_GAMES (length (games w))) as [|Hroom].
  { intros [= <-]. by apply RegistryInv_reply. }
  destruct (negb (validateQuizPayload payload)).
  { intros [= <-]. by apply RegistryInv_reply. }
  destruct (createGameState (socketId s) payload newId rands) as [st|] eqn:Hc;
    [|done].
  apply createGameState_fresh in Hc as (_ & _ & Hp & _ & _ & _ & Hq).
  intros [= <-]. destruct Hinv as (Hl & Hnd & Hh).
  unfold RegistryInv, broadcastLobby, reply, emit, withGames, alloc.
  destruct ack; simpl.
  all: split; [pose proof (mapSet_length (Game.id st) (length (heap w)) (games w)); lia|].
  all: split; [by apply mapSet_NoDup|].
  all: apply Forall_app; split; [done|]; constructor; [|done].
  all: unfold RosterInv; rewrite Hp; simpl.
  all: split; [lia|]; split; [apply NoDup_nil_2|]; split; [constructor|done].
Qed.

Lemma player_join_registry s gameId name ack w w' :
  RegistryInv w -> player_join s gameId name ack w = Ok w' -> RegistryInv w'.
Proof.
  intros Hinv. unfold player_join.
  destruct (getGame gameId w) as [[a st]|] eqn:Hg;
    [|intros [= <-]; by apply RegistryInv_reply].
  apply getGame_Some in Hg as (k & _ & _ & Hst).
  destruct (Game.started st); [intros [= <-]; by apply RegistryInv_reply|].
  destruct (Nat.leb_spec MAX_PLAYERS_PER_GAME (length (Game.players st)))
    as [|Hroom]; [intros [= <-]; by apply RegistryInv_reply|].
  intros [= <-].
  pose proof (RegistryInv_heap w a st Hinv Hst) as Hr.
  pose proof Hr as (_ & Hnd & Hs & _).
  unfold broadcastLobby.
  apply RegistryInv_emit, RegistryInv_reply, RegistryInv_store; [done|].
  apply RosterInv_players; [done| | |].
  - pose proof (mapSet_length (socketId s)
                  (Player.mk (sanitizeName name) 0 None JNull false)
                  (Game.players st)). lia.
  - by apply mapSet_NoDup.
  - by apply mapSet_Forall.
Qed.

Lemma player_answer_registry s gameId questionId optionId now w w' :
  RegistryInv w ->
  player_answer s gameId questionId optionId now w = Ok w' -> RegistryInv w'.
Proof.
  intros Hinv. unfold player_answer.
  destruct (getGame gameId w) as [[a st]|] eqn:Hg; [|by intros [= <-]].
  apply getGame_Some in Hg as (k & _ & _ & Hst).
  destruct (Game.round st) as [r|]; [|by intros [= <-]].
  destruct (lookupKey (socketId s) (Game.players st)) as [p|] eqn:Hp;
    [|by intros [= <-]].
  destruct (currentQuestion st) as [q|]; [|by intros [= <-]].
  destruct (negb (strictEqStr (Question.id q) questionId)); [by intros [= <-]|].
  destruct (notNullish (Player.selectedOptionId p)); [by intros [= <-]|].
  apply maybeEndEarly_registry.
  pose proof (RegistryInv_heap w a st Hinv Hst) as Hr.
  pose proof Hr as (Hl & Hnd & Hs & _).
  apply RegistryInv_emit, RegistryInv_store; [done|].
  apply RosterInv_round, RosterInv_players; [done| | |].
  - rewrite mapSet_length_present by eauto. done.
  - by apply mapSet_NoDup.
  - apply mapSet_Forall; [done|]. simpl.
    apply lookupKey_In in Hp.
    rewrite Forall_forall in Hs. apply list_elem_of_In in Hp.
    apply (Hs _ Hp).
Qed.

Lemma disconnectLoop_registry s entries w w' :
  RegistryInv w -> disconnectLoop s entries w = Ok w' -> RegistryInv w'.
Proof.
  intros Hinv. induction entries as [|[gameId a] rest IH]; simpl;
    [by intros [= <-]|].
  destruct (heap w !! a) as [st|] eqn:Hst; [|done].
  destruct (String.eqb (Game.hostSocketId st) (socketId s)).
  { intros [= <-].
    apply (RegistryInv_delete gameId (emit (Room (Game.id st)) GameCancelled w)).
    by apply RegistryInv_emit. }
  destruct (mapHas (socketId s) (Game.players st)); [|exact IH].
  pose proof (RegistryInv_heap w a st Hinv Hst) as Hr.
  pose proof Hr as (Hl & Hnd & Hs & _).
  assert (Hleft : RegistryInv
            (broadcastLobby
               (Game.withPlayers (mapDelete (socketId s) (Game.players st)) st)
               (store a
                  (Game.withPlayers (mapDelete (socketId s) (Game.players st)) st)
                  w))).
  { unfold broadcastLobby. apply RegistryInv_emit, RegistryInv_store; [done|].
    apply RosterInv_players; [done| | |].
    - pose proof (mapDelete_length (socketId s) (Game.players st)). lia.
    - by apply mapDelete_NoDup.
    - by apply mapDelete_Forall. }
  simpl. destruct (Game.round st) as [r|]; [|by intros [= <-]].
  destruct (length (mapDelete (socketId s) (Game.players st)) =? 0)%nat;
    [|by intros [= <-]].
  apply endRound_registry. by apply RegistryInv_clearTimeout.
Qed.

Lemma step_registry w ev w' :
  RegistryInv w -> step w ev = Ok w' -> RegistryInv w'.
Proof.
  intros Hinv. destruct ev as [s now ack r| s | t]; simpl.
  - unfold wrapRateLimit.
    destruct (rateLimit (address s) now (rateLimitMap w)) as [admitted m].
    assert (Hinv' : RegistryInv (withRateLimitMap m w))
      by (by apply RegistryInv_rateLimitMap).
    destruct admitted; simpl; [|intros [= <-]; by apply RegistryInv_reply].
    destruct r; simpl.
    + by apply host_createGame_registry.
    + unfold host_startGame.
      destruct (getGame gameId (withRateLimitMap m w)) as [[a st]|] eqn:Hg;
        [|by intros [= <-]].
      apply getGame_Some in Hg as (k & _ & _ & Hst).
      destruct (negb (String.eqb (Game.hostSocketId st) (socketId s))
                || Game.started st); [by intros [= <-]|].
      apply startQuestion_registry.
      apply RegistryInv_emit, RegistryInv_store; [done|].
      apply RosterInv_started. by eapply RegistryInv_heap.
    + unfold host_next.
      destruct (getGame gameId (withRateLimitMap m w)) as [[a st]|];
        [|by intros [= <-]].
      destruct (negb (String.eqb (Game.hostSocketId st) (socketId s)));
        [by intros [= <-]|].
      by apply startQuestion_registry.
    + by apply player_join_registry.
    + by apply player_answer_registry.
  - by apply disconnectLoop_registry.
  - unfold timerFires.
    destruct (timers w !! t) as [a|]; [|by intros [= <-]].
    apply endRound_registry. by apply RegistryInv_clearTimeout.
Qed.

Lemma reachable_registry w : reachable w -> RegistryInv w.
Proof.
  induction 1 as [|w ev w' _ IH Hstep].
  - unfold RegistryInv, initialWorld. simpl.
    split; [lia|]. split; [apply NoDup_nil_2|constructor].
  - by eapply step_registry.
Qed.

End Capacity.



(** ** Uncaught exceptions *)

Section Exceptions.





End Exceptions.



(** ** Sessions only move forward *)

Section Forward.

Lemma advances_refl st : advances st st.
Proof. unfold advances. repeat split; try done; lia. Qed.

Lemma sameShape_advances st st' : sameShape st st' -> advances st st'.
Proof.
  intros (H1 & H2 & H3 & H4 & H5 & _). unfold advances.
  rewrite H1, H2, H3, H4, H5. repeat split; try done; lia.
Qed.

Lemma evolves_advances w w' a st :
  evolves w w' -> heap w !! a = Some st ->
  exists st', heap w' !! a = Some st' /\ advances st st'.
Proof.
  intros (_ & Hlen & Hshape & _) Hst.
  destruct (lookup_lt_is_Some_2 (heap w') a) as [st' Hst'].
  { rewrite Hlen. by eapply lookup_lt_Some. }
  exists st'. split; [done|]. apply sameShape_advances. by eapply Hshape.
Qed.

Lemma startQuestion_advances b now w w' a st :
  startQuestion b now w = Ok w' -> heap w !! a = Some st ->
  exists st', heap w' !! a = Some st' /\ advances st st'.
Proof.
  unfold startQuestion. intros H Hst.
  destruct (heap w !! b) as [st0|] eqn:Hb; [|done].
  assert (Hlt : (b < length (heap w))%nat) by (by eapply lookup_lt_Some).
  destruct (Z.of_nat _ <=? _).
  - injection H as <-. unfold endGame, withGames, emit, store. simpl.
    destruct (decide (b = a)) as [->|Hne].
    + rewrite list_lookup_insert_eq by done. eexists. split; [done|].
      replace st0 with st by congruence.
      unfold advances. simpl. repeat split; try done; lia.
    + rewrite list_lookup_insert_ne by done. exists st. split; [done|].
      apply advances_refl.
  - destruct (currentQuestion _) as [q|]; [|done].
    injection H as <-. unfold emit, store, setTimeout. simpl.
    rewrite list_insert_insert_eq.
    destruct (decide (b = a)) as [->|Hne].
    + rewrite list_lookup_insert_eq by done. eexists. split; [done|].
      replace st0 with st by congruence.
      unfold advances. simpl. repeat split; try done; lia.
    + rewrite list_lookup_insert_ne by done. exists st. split; [done|].
      apply advances_refl.
Qed.

Lemma step_advances w ev w' a st :
  step w ev = Ok w' -> heap w !! a = Some st ->
  exists st', heap w' !! a = Some st' /\ advances st st'.
Proof.
  intros Hstep Hst.
  destruct ev as [s now ack req| s | t]; simpl in Hstep.
  - unfold wrapRateLimit in Hstep.
    destruct (rateLimit (address s) now (rateLimitMap w)) as [admitted m].
    destruct admitted; simpl in Hstep.
    2:{ injection Hstep as <-. exists st. split; [|apply advances_refl].
        unfold reply. by destruct ack. }
    assert (Hst' : heap (withRateLimitMap m w) !! a = Some st) by done.
    destruct req; simpl in Hstep.
    + unfold host_createGame in Hstep.
      destruct (MAX_GAMES <=? _)%nat.
      { injection Hstep as <-. exists st. split; [|apply advances_refl].
        unfold reply. by destruct ack. }
      destruct (negb (validateQuizPayload payload)).
      { injection Hstep as <-. exists st. split; [|apply advances_refl].
        unfold reply. by destruct ack. }
      destruct (createGameState (socketId s) payload newId rands) as [st0|];
        [|done].
      injection Hstep as <-. exists st. split; [|apply advances_refl].
      unfold broadcastLobby, reply, emit, withGames, alloc.
      destruct ack; simpl; by apply lookup_app_l_Some.
    + unfold host_startGame in Hstep.
      destruct (getGame gameId (withRateLimitMap m w)) as [[b st0]|] eqn:Hg.
      2:{ injection Hstep as <-. exists st. split; [done|apply advances_refl]. }
      apply getGame_Some in Hg as (k & _ & _ & Hb).
      destruct (negb (String.eqb (Game.hostSocketId st0) (socketId s))
                || Game.started st0).
      { injection Hstep as <-. exists st. split; [done|apply advances_refl]. }
      assert (Hlt : (b < length (heap w))%nat) by (by eapply lookup_lt_Some).
      destruct (decide (b = a)) as [->|Hne].
      * replace st0 with st in * by (simpl in Hb; congruence).
        destruct (startQuestion_advances a now _ w' a (Game.withStarted true st) Hstep)
          as (st' & Hst1 & (A1 & A2 & A3 & A4 & A5)).
        { simpl. by apply list_lookup_insert_eq. }
        exists st'. split; [done|]. unfold advances. simpl in *.
        split; [exact A1|]. split; [exact A2|]. split; [exact A3|].
        split; [intros _; by apply A4|exact A5].
      * apply (startQuestion_advances b now _ w' a st Hstep).
        simpl. by rewrite list_lookup_insert_ne.
    + unfold host_next in Hstep.
      destruct (getGame gameId (withRateLimitMap m w)) as [[b st0]|].
      2:{ injection Hstep as <-. exists st. split; [done|apply advances_refl]. }
      destruct (negb (String.eqb (Game.hostSocketId st0) (socketId s))).
      { injection Hstep as <-. exists st. split; [done|apply advances_refl]. }
      by apply (startQuestion_advances b now _ w' a st Hstep).
    + apply player_join_evolves in Hstep.
      by apply (evolves_advances _ w' a st Hstep).
    + apply player_answer_evolves in Hstep.
      by apply (evolves_advances _ w' a st Hstep).
  - apply disconnectLoop_evolves in Hstep.
    by apply (evolves_advances _ w' a st Hstep).
  - apply timerFires_evolves in Hstep.
    by apply (evolves_advances _ w' a st Hstep).
Qed.

Lemma run_advances evs :
  forall w w' a st,
    run w evs = Ok w' -> heap w !! a = Some st ->
    exists st',
      heap w' !! a = Some st'
      /\ Game.id st' = Game.id st
      /\ Game.hostSocketId st' = Game.hostSocketId st
      /\ Game.questions st' = Game.questions st
      /\ (Game.started st = true -> Game.started st' = true)
      /\ Game.currentIndex st <= Game.currentIndex st'.
Proof.
  induction evs as [|ev evs IH]; intros w w' a st Hrun Hst; simpl in Hrun.
  - injection Hrun as <-. exists st. repeat split; try done; lia.
  - destruct (step w ev) as [w1| |] eqn:Hstep; simpl in Hrun; try done.
    destruct (step_advances w ev w1 a st Hstep Hst)
      as (st1 & Hst1 & A1 & A2 & A3 & A4 & A5).
    destruct (IH w1 w' a st1 Hrun Hst1) as (st' & Hst' & B1 & B2 & B3 & B4 & B5).
    exists st'. split; [done|].
    split; [congruence|]. split; [congruence|]. split; [congruence|].
    split; [auto|lia].
Qed.

End Forward.

(** X7. Sessions only move forward. Whatever event the server handles, a
    session object that exists before the event exists after it with the
    same id, the same host and the same questions; [started] is never
    reset; and the question index never decreases and grows by at most one
    per event. *)
Theorem session_moves_forward w ev w' a st :
  step w ev = Ok w' ->
  heap w !! a = Some st ->
  exists st',
    heap w' !! a = Some st'
    /\ Game.id st' = Game.id st
    /\ Game.hostSocketId st' = Game.hostSocketId st
    /\ Game.questions st' = Game.questions st
    /\ (Game.started st = true -> Game.started st' = true)
    /\ Game.currentIndex st <= Game.currentIndex st' <= Game.currentIndex st + 1.
Proof.
  intros Hstep Hst.
  destruct (step_advances w ev w' a st Hstep Hst) as (st' & ? & ?).
  by exists st'.
Qed.

(** The host starts the game from the lobby: the index goes from -1 to 0. *)
Lemma session_moves_forward_witness :
  exists st',
    heap (worldAfter startedRun) !! 0%nat = Some st'
    /\ Game.id st' = "ABCD"
    /\ Game.started st' = true
    /\ Game.currentIndex st' = 0.
Proof.
  destruct (session_moves_forward (worldAfter lobbyRun)
              (Incoming hostSocket 3000 false (HostStartGame (JStr "ABCD")))
              (worldAfter startedRun) 0%nat
              (default sampleRoundGame (sessionAfter lobbyRun)))
    as (st' & Hst' & Hid & _ & _ & _ & _);
    [vm_compute; reflexivity | vm_compute; reflexivity |].
  exists st'. split; [exact Hst'|]. split; [exact Hid|].
  vm_compute in Hst'. injection Hst' as <-. split; reflexivity.
Defined.

(** X8. The last answer ends the round. When an accepted answer leaves
    nobody awaited, the handler itself ends the round: the round is
    cleared, its timer is cancelled (so the timer adds no second reveal),
    one reveal is broadcast and the answering player is scored on the
    answer just given. When somebody else is still awaited, the round
    stays open and nothing is revealed. *)
Theorem last_answer_ends_round s gameId questionId optionId now w a st r p q :
  getGame gameId w = Some (a, st) ->
  Game.round st = Some r ->
  lookupKey (socketId s) (Game.players st) = Some p ->
  currentQuestion st = Some q ->
  questionId = JStr (Question.id q) ->
  notNullish (Player.selectedOptionId p) = false ->
  let others := filter (fun k => k ≠ socketId s) (Round.awaiting r) in
  let p' := Player.mk (Player.name p) (Player.score p) (Some now) optionId
              (Player.lastCorrect p) in
  (others = [] ->
   exists w' st',
     player_answer s gameId questionId optionId now w = Ok w'
     /\ heap w' !! a = Some st'
     /\ Game.round st' = None
     /\ timers w' !! Round.timer r = None
     /\ timerFires (Round.timer r) w' = Ok w'
     /\ reveals (outbox w') = S (reveals (outbox w))
     /\ scoreOf (socketId s) st'
        = Player.score p
          + scoreIncrement (Question.timeLimitSeconds q) (Round.endMs r)
              (Some now) (isCorrect q p'))
  /\ (others <> [] ->
      exists w' st' r',
        player_answer s gameId questionId optionId now w = Ok w'
        /\ heap w' !! a = Some st'
        /\ Game.round st' = Some r'
        /\ Round.awaiting r' = others
        /\ Round.timer r' = Round.timer r
        /\ timers w' = timers w
        /\ reveals (outbox w') = reveals (outbox w)).
Proof.
  intros Hg Hr Hp Hq Hid Hn others p'.
  pose proof (player_answer_accepted s gameId questionId optionId now w
                a st r p q Hg Hr Hp Hq Hid Hn) as Hacc.
  apply getGame_Some in Hg as (k & _ & _ & Hst).
  assert (Ha : (a < length (heap w))%nat) by (by eapply lookup_lt_Some).
  set (st1 := withAnswer s optionId now p r st) in *.
  set (w1 := emit (Room (socketId s)) (PlayerLocked optionId) (store a st1 w)) in *.
  assert (Hw1 : heap w1 !! a = Some st1).
  { unfold w1, emit, store. simpl. by apply list_lookup_insert_eq. }
  split.
  - intros Hnone. rewrite Hacc. unfold maybeEndEarly. rewrite Hw1.
    cbn [Game.round st1 withAnswer Game.withRound Round.awaiting].
    fold others. rewrite Hnone. simpl.
    set (r1 := Round.mk (Round.startMs r) (Round.endMs r) (Round.timer r) []).
    assert (Hc : heap (clearTimeout (Round.timer r) w1) !! a = Some st1)
      by exact Hw1.
    assert (Hr1 : Game.round st1 = Some r1).
    { unfold st1, withAnswer. simpl. fold others. by rewrite Hnone. }
    rewrite (endRound_active a st1 r1 q _ Hc Hr1 Hq).
    eexists _, _. split; [reflexivity|].
    split; [by apply afterEndRound_heap|]. split; [reflexivity|].
    split; [unfold afterEndRound; simpl; apply lookup_delete_eq|].
    split.
    { unfold timerFires, afterEndRound. simpl. by rewrite lookup_delete_eq. }
    split.
    { unfold afterEndRound, w1, emit. simpl. rewrite !reveals_app.
      unfold reveals at 2 3. simpl. lia. }
    rewrite (scoreOf_scored (socketId s) p' q r1 st1); [reflexivity|].
    unfold st1, withAnswer. simpl. apply lookupKey_mapSet_eq.
  - intros Hsome. rewrite Hacc. unfold maybeEndEarly. rewrite Hw1.
    cbn [Game.round st1 withAnswer Game.withRound Round.awaiting].
    fold others. destruct others as [|o os] eqn:Ho; [done|]. simpl.
    eexists _, _, _. split; [reflexivity|]. split; [exact Hw1|].
    split; [unfold st1, withAnswer; simpl; reflexivity|].
    split; [simpl; exact Ho|]. split; [reflexivity|]. split; [reflexivity|].
    unfold w1, emit. simpl. rewrite reveals_app. unfold reveals at 2. simpl. lia.
Qed.

(** Ann is the only player; her answer ends the round and earns her
    floor(500 + 500 * 18 / 20) = 950 points. *)
Lemma last_answer_ends_round_witness :
  exists w' st',
    player_answer annSocket (JStr "ABCD") (JStr "q1") (JStr "a") 5000
      (worldAfter startedRun) = Ok w'
    /\ heap w' !! 0%nat = Some st'
    /\ Game.round st' = None
    /\ timers w' !! 0%nat = None
    /\ reveals (outbox w') = 1%nat
    /\ scoreOf "ann" st' = 950.
Proof.
  destruct (last_answer_ends_round annSocket (JStr "ABCD") (JStr "q1") (JStr "a")
              5000 (worldAfter startedRun) 0%nat
              (default sampleRoundGame (sessionAfter startedRun))
              (Round.mk 3000 23000 0 ["ann"])
              (Player.mk "Ann" 0 None JNull false) sampleQuestion)
    as [H _];
    [vm_compute; reflexivity | vm_compute; reflexivity
    | vm_compute; reflexivity | vm_compute; reflexivity
    | reflexivity | reflexivity |].
  destruct H as (w' & st' & H1 & H2 & H3 & H4 & _ & H6 & H7); [reflexivity|].
  exists w', st'. split; [exact H1|]. split; [exact H2|]. split; [exact H3|].
  split; [exact H4|]. split; [exact H6|]. exact H7.
Defined.

(** X9. Sources do not interfere in the rate limiter. The verdict on an
    event of source [ip] in a stream of events of many sources is the
    verdict it gets when the events of the other sources are left out,
    whatever the table holds for the other sources. *)
Theorem rateLimit_isolation ip evs :
  forall (m m' : gmap string (list Z)) i t,
    m' !! ip = m !! ip ->
    evs !! i = Some (ip, t) ->
    verdicts evs m !! i
    = verdicts (filter (fun e => e.1 = ip) evs) m' !! priorEvents ip i evs.
Proof.
  induction evs as [|[ip' now] evs IH]; intros m m' i t Hm Hi; [by destruct i|].
  destruct (decide (ip' = ip)) as [->|Hne].
  - rewrite filter_cons_True by done. cbn [verdicts]. unfold rateLimit.
    rewrite Hm. destruct i as [|i]; [reflexivity|].
    simpl in Hi. unfold priorEvents. simpl.
    rewrite filter_cons_True by done. simpl.
    apply (IH _ _ i t); [|exact Hi].
    by rewrite !lookup_insert_eq.
  - rewrite filter_cons_False by done.
    destruct i as [|i]; [simpl in Hi; congruence|].
    simpl in Hi. cbn [verdicts]. unfold rateLimit. simpl.
    unfold priorEvents. simpl. rewrite filter_cons_False by done.
    apply (IH _ _ i t); [|exact Hi].
    by rewrite lookup_insert_ne.
Qed.

(** The third event of ["10.0.0.7"] is the fifth of the mixed stream. *)
Lemma rateLimit_isolation_witness :
  verdicts mixedStream ∅ !! 4%nat
  = verdicts [("10.0.0.7", 1000); ("10.0.0.7", 1002); ("10.0.0.7", 1004)]
             (<["10.0.0.9" := [5; 6; 7]]> ∅) !! 2%nat.
Proof.
  apply (rateLimit_isolation "10.0.0.7" mixedStream ∅
           (<["10.0.0.9" := [5; 6; 7]]> ∅) 4%nat 1004); reflexivity.
Defined.

(** ** Registry operations *)

Section Registry.

Lemma lookupKey_mapSet_ne {A} k k' (v : A) m :
  k' <> k -> lookupKey k' (mapSet k v m) = lookupKey k' m.
Proof.
  intros Hne. induction m as [|[k0 v0] m IH]; simpl.
  - apply String.eqb_neq in Hne. by rewrite Hne.
  - destruct (String.eqb_spec k k0) as [->|Hk]; simpl.
    + apply String.eqb_neq in Hne. by rewrite Hne.
    + destruct (String.eqb k' k0); [done|exact IH].
Qed.

Lemma getGame_missing k w : lookupKey k (games w) = None -> getGame (JStr k) w = None.
Proof. intros H. unfold getGame. by rewrite H. Qed.

End Registry.

(** X10. Advancing past the last question completes the game. For a
    registered session and its host, ['host:next'] on the last question (or
    after it) broadcasts the final leaderboard and removes the session from
    the registry; no timer is cancelled. From then on the session id is
    unknown: ['host:next'], ['host:startGame'] and ['player:answer'] for it
    do nothing, and ['player:join'] is answered with an error. *)
Theorem next_past_last_completes s k now w a st :
  reachable w ->
  lookupKey k (games w) = Some a ->
  heap w !! a = Some st ->
  Game.hostSocketId st = socketId s ->
  Z.of_nat (length (Game.questions st)) <= Game.currentIndex st + 1 ->
  exists w',
    host_next s (JStr k) now w = Ok w'
    /\ getGame (JStr k) w' = None
    /\ outbox w' = (outbox w ++ [(Room k, GameOver (getPublicLeaderboard st))])%list
    /\ timers w' = timers w
    /\ (forall s' now', host_next s' (JStr k) now' w' = Ok w')
    /\ (forall s' now', host_startGame s' (JStr k) now' w' = Ok w')
    /\ (forall s' q o now', player_answer s' (JStr k) q o now' w' = Ok w')
    /\ (forall s' name ack,
          player_join s' (JStr k) name ack w'
          = Ok (reply ack s' (AckError "Game not found or already started") w')).
Proof.
  intros Hreach Hk Hst Hhost Hlast.
  destruct (reachable_inv w Hreach) as (_ & I2 & _).
  destruct (I2 k a (lookupKey_In _ _ _ Hk)) as (st0 & Hst0 & Hid & _).
  replace st0 with st in * by congruence.
  assert (Hnext : host_next s (JStr k) now w
                  = Ok (endGame (Game.withCurrentIndex (Game.currentIndex st + 1) st)
                          (store a (Game.withCurrentIndex (Game.currentIndex st + 1) st) w))).
  { unfold host_next, getGame. rewrite Hk, Hst, Hhost, String.eqb_refl. simpl.
    unfold startQuestion. rewrite Hst.
    cbn [Game.questions Game.currentIndex Game.withCurrentIndex].
    destruct (Z.leb_spec (Z.of_nat (length (Game.questions st)))
                (Game.currentIndex st + 1)); [done|lia]. }
  eexists. split; [exact Hnext|].
  assert (Hgone : getGame (JStr k)
                    (endGame (Game.withCurrentIndex (Game.currentIndex st + 1) st)
                       (store a (Game.withCurrentIndex (Game.currentIndex st + 1) st) w))
                  = None).
  { apply getGame_missing. unfold endGame, withGames, emit, store. simpl.
    rewrite Hid. apply lookupKey_mapDelete. }
  split; [exact Hgone|].
  split; [unfold endGame, withGames, emit, store; simpl; by rewrite Hid|].
  split; [reflexivity|].
  split; [intros s' now'; unfold host_next; by rewrite Hgone|].
  split; [intros s' now'; unfold host_startGame; by rewrite Hgone|].
  split; [intros s' q o now'; unfold player_answer; by rewrite Hgone|].
  intros s' name ack. unfold player_join. by rewrite Hgone.
Qed.

(** The host sends ['host:next'] during the only question of the game. *)
Lemma next_past_last_completes_witness :
  exists w',
    host_next hostSocket (JStr "ABCD") 4000 (worldAfter startedRun) = Ok w'
    /\ getGame (JStr "ABCD") w' = None
    /\ timers w' = timers (worldAfter startedRun)
    /\ last (outbox w')
       = Some (Room "ABCD", GameOver [mkEntry "Ann" 0 false]).
Proof.
  destruct (next_past_last_completes hostSocket "ABCD" 4000
              (worldAfter startedRun) 0%nat
              (default sampleRoundGame (sessionAfter startedRun)))
    as (w' & H1 & H2 & H3 & H4 & _).
  - apply (run_reachable startedRun initialWorld); [apply reachable_init|].
    vm_compute. reflexivity.
  - vm_compute. reflexivity.
  - vm_compute. reflexivity.
  - reflexivity.
  - vm_compute. discriminate.
  - exists w'. split; [exact H1|]. split; [exact H2|]. split; [exact H4|].
    rewrite H3. rewrite last_snoc. reflexivity.
Defined.

(** X11. Joining. A join is refused, with an error for the sender and
    nothing else changed, when the session is unknown, started or full.
    Otherwise the sender becomes a player with the sanitized name, score 0
    and no answer, replacing any player the same socket already had; the
    other players, the round and its awaiting set are untouched, and the
    roster is broadcast. *)
Theorem player_join_effect s gameId name ack w :
  ((getGame gameId w = None
    \/ exists a st, getGame gameId w = Some (a, st) /\ Game.started st = true) ->
   player_join s gameId name ack w
   = Ok (reply ack s (AckError "Game not found or already started") w))
  /\ (forall a st,
        getGame gameId w = Some (a, st) ->
        Game.started st = false ->
        (MAX_PLAYERS_PER_GAME <= length (Game.players st))%nat ->
        player_join s gameId name ack w
        = Ok (reply ack s (AckError "Game is full.") w))
  /\ (forall a st,
        getGame gameId w = Some (a, st) ->
        Game.started st = false ->
        (length (Game.players st) < MAX_PLAYERS_PER_GAME)%nat ->
        exists w' st',
          player_join s gameId name ack w = Ok w'
          /\ heap w' !! a = Some st'
          /\ lookupKey (socketId s) (Game.players st')
             = Some (Player.mk (sanitizeName name) 0 None JNull false)
          /\ (forall k, k <> socketId s ->
                lookupKey k (Game.players st') = lookupKey k (Game.players st))
          /\ (length (Game.players st')
              = if mapHas (socketId s) (Game.players st)
                then length (Game.players st)
                else S (length (Game.players st)))
          /\ Game.round st' = Game.round st
          /\ games w' = games w
          /\ last (outbox w')
             = Some (Room (Game.id st),
                     LobbyUpdate (map (fun e => Player.name e.2) (Game.players st'))
                       (Game.id st) (Game.title st))).
Proof.
  split; [|split].
  - intros [Hnone|(a & st & Hg & Hbad)]; unfold player_join.
    + by rewrite Hnone.
    + by rewrite Hg, Hbad.
  - intros a st Hg Hs Hfull. unfold player_join. rewrite Hg, Hs.
    apply Nat.leb_le in Hfull. by rewrite Hfull.
  - intros a st Hg Hs Hroom. unfold player_join. rewrite Hg, Hs.
    apply Nat.leb_gt in Hroom. rewrite Hroom.
    apply getGame_Some in Hg as (k & _ & _ & Hst).
    eexists _, _. split; [reflexivity|].
    split.
    { unfold broadcastLobby, reply, emit, store. destruct ack; simpl;
        apply list_lookup_insert_eq; by eapply lookup_lt_Some. }
    split; [apply lookupKey_mapSet_eq|].
    split; [intros k' Hk'; simpl; by apply lookupKey_mapSet_ne|].
    split.
    { simpl. unfold mapHas.
      destruct (lookupKey (socketId s) (Game.players st)) eqn:E.
      - apply mapSet_length_present. eauto.
      - rewrite mapSet_absent by done. rewrite length_app. simpl. lia. }
    split; [reflexivity|].
    split; [unfold broadcastLobby, reply, emit, store; by destruct ack|].
    unfold broadcastLobby, emit. simpl. by rewrite last_snoc.
Qed.

(** X12. Creating a game. With room in the registry, a payload that the
    validator accepts is registered under the generated id: the id now
    names the new state object, every other id names what it named before,
    no existing object and no timer is touched, and the sender's success
    answer (if asked for) is followed by a roster broadcast of the empty
    lobby. If the id was already in use, it now names the new game. With
    100 sessions registered, any payload is refused and nothing changes but
    the error answered. *)
Theorem host_createGame_registers s payload ack newId rands w :
  (forall st,
      (length (games w) < MAX_GAMES)%nat ->
      validateQuizPayload payload = true ->
      createGameState (socketId s) payload newId rands = Some st ->
      exists w',
        host_createGame s payload ack newId rands w = Ok w'
        /\ getGame (JStr newId) w' = Some (length (heap w), st)
        /\ (forall k, k <> newId -> lookupKey k (games w') = lookupKey k (games w))
        /\ (forall a st0, heap w !! a = Some st0 -> heap w' !! a = Some st0)
        /\ timers w' = timers w
        /\ outbox w'
           = (outbox w
              ++ (if ack then [(Callback (socketId s), AckCreated newId)] else [])
              ++ [(Room newId, LobbyUpdate [] newId (Game.title st))])%list)
  /\ ((MAX_GAMES <= length (games w))%nat ->
      host_createGame s payload ack newId rands w
      = Ok (reply ack s (AckError "Too many games running. Try again later.") w)).
Proof.
  split.
  - intros st Hroom Hvalid Hc. unfold host_createGame.
    apply Nat.leb_gt in Hroom. rewrite Hroom, Hvalid, Hc. simpl.
    apply createGameState_fresh in Hc as (Hid & _ & Hp & _).
    eexists. split; [reflexivity|].
    split.
    { unfold getGame, broadcastLobby, reply, emit, withGames.
      destruct ack; simpl; rewrite Hid, lookupKey_mapSet_eq;
        by rewrite lookup_app_r, Nat.sub_diag. }
    split.
    { intros k Hk. unfold broadcastLobby, reply, emit, withGames.
      destruct ack; simpl; rewrite Hid; by apply lookupKey_mapSet_ne. }
    split.
    { intros a st0 Hst0. unfold broadcastLobby, reply, emit, withGames.
      destruct ack; simpl; by apply lookup_app_l_Some. }
    split; [unfold broadcastLobby, reply, emit, withGames; by destruct ack|].
    unfold broadcastLobby, reply, emit, withGames.
    destruct ack; simpl; rewrite Hid, Hp; simpl; by rewrite <- ?app_assoc.
  - intros Hfull. unfold host_createGame.
    apply Nat.leb_le in Hfull. by rewrite Hfull.
Qed.

(** Bob joins the lobby in which Ann waits. *)
Lemma player_join_effect_witness :
  exists w' st',
    player_join bobSocket (JStr "ABCD") "  <i>Bob</i> " true (worldAfter lobbyRun)
    = Ok w'
    /\ heap w' !! 0%nat = Some st'
    /\ lookupKey "bob" (Game.players st') = Some (Player.mk "Bob" 0 None JNull false)
    /\ lookupKey "ann" (Game.players st') = Some (Player.mk "Ann" 0 None JNull false)
    /\ length (Game.players st') = 2%nat.
Proof.
  destruct (player_join_effect bobSocket (JStr "ABCD") "  <i>Bob</i> " true
              (worldAfter lobbyRun)) as (_ & _ & H).
  destruct (H 0%nat (default sampleRoundGame (sessionAfter lobbyRun)))
    as (w' & st' & H1 & H2 & H3 & H4 & H5 & _);
    [vm_compute; reflexivity | reflexivity | vm_compute; lia |].
  exists w', st'. split; [exact H1|]. split; [exact H2|]. split; [exact H3|].
  split; [rewrite (H4 "ann") by discriminate; vm_compute; reflexivity|].
  exact H5.
Defined.

(** The first game of a fresh server. *)
Lemma host_createGame_registers_witness :
  exists w' st,
    host_createGame hostSocket sampleQuiz true "ABCD" [0] initialWorld = Ok w'
    /\ getGame (JStr "ABCD") w' = Some (0%nat, st)
    /\ outbox w'
       = [(Callback "host", AckCreated "ABCD");
          (Room "ABCD", LobbyUpdate [] "ABCD" (JStr "Capitals"))].
Proof.
  destruct (host_createGame_registers hostSocket sampleQuiz true "ABCD" [0]
              initialWorld) as (H & _).
  destruct (H (default sampleRoundGame
                 (createGameState "host" sampleQuiz "ABCD" [0])))
    as (w' & H1 & H2 & _ & _ & _ & H6);
    [vm_compute; lia | reflexivity | vm_compute; reflexivity |].
  eexists w', _. split; [exact H1|]. split; [exact H2|exact H6].
Defined.

(** ** The roster of a started session *)

Section Roster.

(** The socket ids of the players, in joining order. *)
Lemma endRound_keys b w w' a st :
  endRound b w = Ok w' -> heap w !! a = Some st ->
  exists st', heap w' !! a = Some st'
              /\ map fst (Game.players st') = map fst (Game.players st).
Proof.
  unfold endRound. intros H Hst.
  destruct (heap w !! b) as [st0|] eqn:Hb; [|done].
  assert (Hlt : (b < length (heap w))%nat) by (by eapply lookup_lt_Some).
  destruct (Game.round st0) as [r|]; [|injection H as <-; eauto].
  destruct (currentQuestion st0) as [q|]; [|done].
  injection H as <-. unfold emit, store, clearTimeout. simpl.
  rewrite list_insert_insert_eq.
  destruct (decide (b = a)) as [->|Hne].
  - rewrite list_lookup_insert_eq by done. eexists. split; [done|].
    simpl. replace st0 with st by congruence. apply map_fst_values.
  - rewrite list_lookup_insert_ne by done. eauto.
Qed.

Lemma maybeEndEarly_keys b w w' a st :
  maybeEndEarly b w = Ok w' -> heap w !! a = Some st ->
  exists st', heap w' !! a = Some st'
              /\ map fst (Game.players st') = map fst (Game.players st).
Proof.
  unfold maybeEndEarly. intros H Hst.
  destruct (heap w !! b) as [st0|]; [|done].
  destruct (Game.round st0) as [r|]; [|injection H as <-; eauto].
  destruct (length (Round.awaiting r) =? 0)%nat; [|injection H as <-; eauto].
  by apply (endRound_keys b _ w' a st H).
Qed.

Lemma startQuestion_keys b now w w' a st :
  startQuestion b now w = Ok w' -> heap w !! a = Some st ->
  exists st', heap w' !! a = Some st'
              /\ map fst (Game.players st') = map fst (Game.players st).
Proof.
  unfold startQuestion. intros H Hst.
  destruct (heap w !! b) as [st0|] eqn:Hb; [|done].
  assert (Hlt : (b < length (heap w))%nat) by (by eapply lookup_lt_Some).
  destruct (Z.of_nat _ <=? _).
  - injection H as <-. unfold endGame, withGames, emit, store. simpl.
    destruct (decide (b = a)) as [->|Hne].
    + rewrite list_lookup_insert_eq by done. eexists. split; [done|].
      simpl. by replace st0 with st by congruence.
    + rewrite list_lookup_insert_ne by done. eauto.
  - destruct (currentQuestion _) as [q|]; [|done].
    injection H as <-. unfold emit, store, setTimeout. simpl.
    rewrite list_insert_insert_eq.
    destruct (decide (b = a)) as [->|Hne].
    + rewrite list_lookup_insert_eq by done. eexists. split; [done|].
      simpl. replace st0 with st by congruence. apply map_fst_values.
    + rewrite list_lookup_insert_ne by done. eauto.
Qed.

Lemma mapDelete_keys_sublist {A} k (m : list (string * A)) :
  sublist (map fst (mapDelete k m)) (map fst m).
Proof. unfold mapDelete. apply (fmap_sublist fst), sublist_filter. Qed.

Lemma step_keys w ev w' a st :
  step w ev = Ok w' -> heap w !! a = Some st -> Game.started st = true ->
  exists st', heap w' !! a = Some st'
              /\ sublist (map fst (Game.players st')) (map fst (Game.players st)).
Proof.
  intros Hstep Hst Hstarted.
  assert (Hsame : forall w1, heap w1 = heap w ->
            exists st', heap w1 !! a = Some st'
              /\ sublist (map fst (Game.players st')) (map fst (Game.players st))).
  { intros w1 ->. by exists st. }
  assert (Heq : forall w1 w2,
            (forall st0, heap w1 !! a = Some st0 ->
               exists st', heap w2 !! a = Some st'
                 /\ map fst (Game.players st') = map fst (Game.players st0)) ->
            heap w1 !! a = Some st ->
            exists st', heap w2 !! a = Some st'
              /\ sublist (map fst (Game.players st')) (map fst (Game.players st))).
  { intros w1 w2 H H1. destruct (H st H1) as (st' & ? & Hk). exists st'.
    split; [done|]. by rewrite Hk. }
  destruct ev as [s now ack req| s | t]; simpl in Hstep.
  - unfold wrapRateLimit in Hstep.
    destruct (rateLimit (address s) now (rateLimitMap w)) as [admitted m].
    destruct admitted; simpl in Hstep.
    2:{ injection Hstep as <-. apply Hsame. unfold reply. by destruct ack. }
    destruct req; simpl in Hstep.
    + unfold host_createGame in Hstep.
      destruct (MAX_GAMES <=? _)%nat.
      { injection Hstep as <-. apply Hsame. unfold reply. by destruct ack. }
      destruct (negb (validateQuizPayload payload)).
      { injection Hstep as <-. apply Hsame. unfold reply. by destruct ack. }
      destruct (createGameState (socketId s) payload newId rands) as [st0|];
        [|done].
      injection Hstep as <-. exists st. split; [|done].
      unfold broadcastLobby, reply, emit, withGames, alloc.
      destruct ack; simpl; by apply lookup_app_l_Some.
    + unfold host_startGame in Hstep.
      destruct (getGame gameId (withRateLimitMap m w)) as [[b st0]|] eqn:Hg.
      2:{ injection Hstep as <-. by apply Hsame. }
      apply getGame_Some in Hg as (k & _ & _ & Hb). simpl in Hb.
      destruct (negb (String.eqb (Game.hostSocketId st0) (socketId s))
                || Game.started st0) eqn:Hguard.
      { injection Hstep as <-. by apply Hsame. }
      apply orb_false_iff in Hguard as [_ Hns].
      assert (b <> a) by (intros ->; congruence).
      apply (Heq _ w' (fun st1 => startQuestion_keys b now _ w' a st1 Hstep)).
      simpl. by rewrite list_lookup_insert_ne.
    + unfold host_next in Hstep.
      destruct (getGame gameId (withRateLimitMap m w)) as [[b st0]|].
      2:{ injection Hstep as <-. by apply Hsame. }
      destruct (negb (String.eqb (Game.hostSocketId st0) (socketId s))).
      { injection Hstep as <-. by apply Hsame. }
      by apply (Heq _ w' (fun st1 => startQuestion_keys b now _ w' a st1 Hstep)).
    + unfold player_join in Hstep.
      destruct (getGame gameId (withRateLimitMap m w)) as [[b st0]|] eqn:Hg.
      2:{ injection Hstep as <-. apply Hsame. unfold reply. by destruct ack. }
      apply getGame_Some in Hg as (k & _ & _ & Hb). simpl in Hb.
      destruct (Game.started st0) eqn:Hs0.
      { injection Hstep as <-. apply Hsame. unfold reply. by destruct ack. }
      destruct (MAX_PLAYERS_PER_GAME <=? _)%nat.
      { injection Hstep as <-. apply Hsame. unfold reply. by destruct ack. }
      assert (b <> a) by (intros ->; congruence).
      injection Hstep as <-. exists st. split; [|done].
      unfold broadcastLobby, reply, emit, store.
      destruct ack; simpl; by rewrite list_lookup_insert_ne.
    + unfold player_answer in Hstep.
      destruct (getGame gameId (withRateLimitMap m w)) as [[b st0]|] eqn:Hg.
      2:{ injection Hstep as <-. by apply Hsame. }
      apply getGame_Some in Hg as (k & _ & _ & Hb). simpl in Hb.
      destruct (Game.round st0) as [r|]; [|injection Hstep as <-; by apply Hsame].
      destruct (lookupKey (socketId s) (Game.players st0)) as [p|] eqn:Hp;
        [|injection Hstep as <-; by apply Hsame].
      destruct (currentQuestion st0) as [q|];
        [|injection Hstep as <-; by apply Hsame].
      destruct (negb (strictEqStr (Question.id q) questionId));
        [injection Hstep as <-; by apply Hsame|].
      destruct (notNullish (Player.selectedOptionId p));
        [injection Hstep as <-; by apply Hsame|].
      assert (Hlt : (b < length (heap w))%nat) by (by eapply lookup_lt_Some).
      destruct (decide (b = a)) as [->|Hne].
      * replace st0 with st in * by congruence.
        eassert (Hmid : heap _ !! a = Some _);
          [|destruct (maybeEndEarly_keys a _ w' a _ Hstep Hmid)
              as (st' & Hst' & Hk')].
        { simpl. by apply list_lookup_insert_eq. }
        exists st'. split; [done|]. rewrite Hk'. simpl.
        rewrite mapSet_present by eauto. done.
      * apply (Heq _ w' (fun st1 => maybeEndEarly_keys b _ w' a st1 Hstep)).
        simpl. by rewrite list_lookup_insert_ne.
  - unfold onDisconnect in Hstep. revert Hstep.
    generalize (games w) as entries.
    induction entries as [|[gameId b] rest IH]; simpl.
    { intros [= <-]. by apply Hsame. }
    destruct (heap w !! b) as [st0|] eqn:Hb; [|done].
    assert (Hlt : (b < length (heap w))%nat) by (by eapply lookup_lt_Some).
    destruct (String.eqb (Game.hostSocketId st0) (socketId s)).
    { intros [= <-]. by apply Hsame. }
    destruct (mapHas (socketId s) (Game.players st0)); [|exact IH].
    simpl.
    assert (Hmid : exists st1,
              heap (broadcastLobby
                      (Game.withPlayers (mapDelete (socketId s) (Game.players st0)) st0)
                      (store b
                         (Game.withPlayers (mapDelete (socketId s) (Game.players st0)) st0)
                         w)) !! a = Some st1
              /\ sublist (map fst (Game.players st1)) (map fst (Game.players st))).
    { unfold broadcastLobby, emit, store. simpl.
      destruct (decide (b = a)) as [->|Hne].
      - rewrite list_lookup_insert_eq by done. eexists. split; [done|].
        simpl. replace st0 with st by congruence. apply mapDelete_keys_sublist.
      - rewrite list_lookup_insert_ne by done. by exists st. }
    destruct Hmid as (st1 & Hst1 & Hsub).
    destruct (Game.round st0) as [r|]; [|intros [= <-]; by exists st1].
    destruct (length _ =? 0)%nat; [|intros [= <-]; by exists st1].
    intros Hend.
    destruct (endRound_keys b _ w' a st1 Hend Hst1) as (st' & Hst' & Hk').
    exists st'. split; [done|]. by rewrite Hk'.
  - unfold timerFires in Hstep.
    destruct (timers w !! t) as [b|]; [|injection Hstep as <-; by apply Hsame].
    by apply (Heq _ w' (fun st1 => endRound_keys b _ w' a st1 Hstep)).
Qed.

End Roster.

(** X13. A started session is closed. Take a session object whose
    [started] flag is set and any sequence of events after it. The flag
    stays set and the players are still among those it had, in the same
    order: nobody joins a started game. If the session is still registered
    under an id, ['host:startGame'] for it does nothing and
    ['player:join'] is answered with an error. *)
Theorem started_session_is_closed evs :
  forall w w' a st,
    run w evs = Ok w' ->
    heap w !! a = Some st ->
    Game.started st = true ->
    exists st',
      heap w' !! a = Some st'
      /\ Game.started st' = true
      /\ sublist (map fst (Game.players st')) (map fst (Game.players st))
      /\ forall k,
           lookupKey k (games w') = Some a ->
           (forall s now, host_startGame s (JStr k) now w' = Ok w')
           /\ (forall s name ack,
                 player_join s (JStr k) name ack w'
                 = Ok (reply ack s (AckError "Game not found or already started") w')).
Proof.
  induction evs as [|ev evs IH]; intros w w' a st Hrun Hst Hstarted;
    simpl in Hrun.
  - injection Hrun as <-. exists st. split; [done|]. split; [done|].
    split; [done|]. intros k Hk. split.
    + intros s now. unfold host_startGame, getGame.
      rewrite Hk, Hst, Hstarted. by rewrite orb_true_r.
    + intros s name ack. unfold player_join, getGame.
      by rewrite Hk, Hst, Hstarted.
  - destruct (step w ev) as [w1| |] eqn:Hstep; simpl in Hrun; try done.
    destruct (step_advances w ev w1 a st Hstep Hst)
      as (st1 & Hst1 & _ & _ & _ & Hs1 & _).
    destruct (step_keys w ev w1 a st Hstep Hst Hstarted) as (st1' & Hst1' & Hsub).
    replace st1' with st1 in * by congruence.
    destruct (IH w1 w' a st1 Hrun Hst1 (Hs1 Hstarted))
      as (st' & Hst' & Hs' & Hsub' & Hcmd).
    exists st'. split; [done|]. split; [done|]. split; [|done].
    by etrans.
Qed.

(** A started game with Ann and Bob: Bob leaves, Ann stays, and a join by
    a newcomer is refused. *)
Lemma started_session_is_closed_witness :
  exists st',
    heap (worldAfter bobLeavesRun) !! 0%nat = Some st'
    /\ Game.started st' = true
    /\ map fst (Game.players st') = ["ann"]
    /\ player_join (mkSocket "eve" "10.0.0.4") (JStr "ABCD") "Eve" false
         (worldAfter bobLeavesRun)
       = Ok (worldAfter bobLeavesRun).
Proof.
  destruct (started_session_is_closed
              [Incoming annSocket 5000 false
                 (PlayerAnswer (JStr "ABCD") (JStr "q1") (JStr "a"));
               Disconnect bobSocket]
              (worldAfter midRoundRun) (worldAfter bobLeavesRun) 0%nat
              (default sampleRoundGame (sessionAfter midRoundRun)))
    as (st' & H1 & H2 & _ & H4);
    [vm_compute; reflexivity | vm_compute; reflexivity | reflexivity |].
  exists st'. split; [exact H1|]. split; [exact H2|].
  split; [vm_compute in H1; injection H1 as <-; reflexivity|].
  destruct (H4 "ABCD") as [_ Hjoin]; [vm_compute; reflexivity|].
  exact (Hjoin (mkSocket "eve" "10.0.0.4") "Eve" false).
Defined.

(** ** The host leaves *)

Section HostLeaves.

Lemma mapDelete_absent {A} k (m : list (string * A)) :
  k ∉ map fst m -> mapDelete k m = m.
Proof.
  unfold mapDelete. induction m as [|[k' v] m IH]; [done|]. simpl.
  rewrite not_elem_of_cons. intros [Hne Hm].
  rewrite filter_cons_True by done. by rewrite IH.
Qed.

Lemma mapDelete_middle {A} k (v : A) pre post :
  NoDup (map fst (pre ++ (k, v) :: post)%list) ->
  mapDelete k (pre ++ (k, v) :: post)%list = (pre ++ post)%list.
Proof.
  rewrite map_app. simpl. intros Hnd.
  apply NoDup_app in Hnd as (_ & Hpre & Hpost).
  apply NoDup_cons in Hpost as [Hpost _].
  unfold mapDelete. rewrite filter_app, filter_cons_False by (simpl; tauto).
  fold (mapDelete k pre) (mapDelete k post).
  rewrite !mapDelete_absent; [done|done|].
  intros Hin. apply (Hpre k Hin). by left.
Qed.

End HostLeaves.

(** X14. The host of a session disconnects. Let the first session, in
    registry order, in which the socket is host or player be one it hosts.
    The handler sends ['game:cancelled'] to the session's room and removes
    that one entry of the registry; the other entries stay, in order, also
    other sessions of the same host. The state object is left as it is,
    with its round if one is open, and no timer is cleared. *)
Theorem host_disconnect s w pre k a post st :
  reachable w ->
  games w = (pre ++ (k, a) :: post)%list ->
  (forall k' b, In (k', b) pre ->
     exists st', heap w !! b = Some st'
                 /\ Game.hostSocketId st' <> socketId s
                 /\ lookupKey (socketId s) (Game.players st') = None) ->
  heap w !! a = Some st ->
  Game.hostSocketId st = socketId s ->
  exists w',
    onDisconnect s w = Ok w'
    /\ games w' = (pre ++ post)%list
    /\ heap w' = heap w
    /\ timers w' = timers w
    /\ outbox w' = (outbox w ++ [(Room k, GameCancelled)])%list
    /\ getGame (JStr k) w' = None
    /\ (forall k', k' <> k -> getGame (JStr k') w' = getGame (JStr k') w).
Proof.
  intros Hreach Hgames Hpre Hst Hhost.
  pose proof (reachable_registry w Hreach) as (_ & Hnd & _).
  pose proof (reachable_inv w Hreach) as (_ & Hreg & _).
  destruct (Hreg k a) as (st0 & Hst0 & Hid & _).
  { rewrite Hgames. apply in_or_app. right. by left. }
  replace st0 with st in * by congruence.
  unfold onDisconnect. rewrite Hgames, (disconnectLoop_skip s pre _ w Hpre).
  simpl. rewrite Hst. apply String.eqb_eq in Hhost. rewrite Hhost.
  eexists. split; [reflexivity|]. unfold withGames, emit. simpl.
  rewrite Hgames in Hnd |- *.
  split; [by apply mapDelete_middle|].
  split; [done|]. split; [done|]. split; [by rewrite Hid|].
  split.
  - unfold getGame. simpl. by rewrite lookupKey_mapDelete.
  - intros k' Hne. unfold getGame. simpl.
    by rewrite lookupKey_mapDelete_ne.
Qed.

(** The host of the sample game leaves during the first round: the
    registry is empty afterwards, the round's timer is still pending. *)
Lemma host_disconnect_witness :
  exists w',
    onDisconnect hostSocket (worldAfter startedRun) = Ok w'
    /\ games w' = []
    /\ timers w' !! 0%nat = Some 0%nat.
Proof.
  destruct (host_disconnect hostSocket (worldAfter startedRun) [] "ABCD" 0%nat []
              (default sampleRoundGame (sessionAfter startedRun)))
    as (w' & H1 & H2 & _ & H4 & _).
  - apply (run_reachable startedRun initialWorld); [apply reachable_init|].
    vm_compute. reflexivity.
  - vm_compute. reflexivity.
  - intros k' b [].
  - vm_compute. reflexivity.
  - reflexivity.
  - exists w'. split; [exact H1|]. split; [exact H2|].
    rewrite H4. vm_compute. reflexivity.
Defined.

(** ** What a round records *)

Section RoundFacts.

















End RoundFacts.



(** ** Who moves a session *)

Section Authority.

Lemma startQuestion_other b now w w' a :
  b <> a -> startQuestion b now w = Ok w' -> heap w' !! a = heap w !! a.
Proof.
  intros Hne. unfold startQuestion.
  destruct (heap w !! b) as [st0|]; [|done].
  destruct (Z.of_nat _ <=? _).
  - intros [= <-]. unfold endGame, withGames, emit, store. simpl.
    by rewrite list_lookup_insert_ne.
  - destruct (currentQuestion _) as [q|]; [|done].
    intros [= <-]. unfold emit, store, setTimeout. simpl.
    by rewrite !list_lookup_insert_ne.
Qed.

Lemma evolves_index w w' a st st' :
  evolves w w' -> heap w !! a = Some st -> heap w' !! a = Some st' ->
  Game.currentIndex st' = Game.currentIndex st
  /\ Game.started st' = Game.started st.
Proof.
  intros (_ & _ & Hshape & _) Hst Hst'.
  by destruct (Hshape a st st' Hst Hst') as (_ & _ & _ & ? & ? & _).
Qed.

End Authority.

(** X16. Only the host moves a session. If a step of the server changes
    the question index or the [started] flag of a session object, the
    step is a ['host:startGame'] or a ['host:next'] event, admitted by the
    rate limiter, that names the session by an id of the registry and
    comes from the socket recorded as the session's host. No join, answer,
    disconnect, timer or command of another socket does it. *)
Theorem only_host_advances w ev w' a st st' :
  step w ev = Ok w' ->
  heap w !! a = Some st ->
  heap w' !! a = Some st' ->
  Game.currentIndex st' <> Game.currentIndex st
  \/ Game.started st' <> Game.started st ->
  exists s now ack k,
    socketId s = Game.hostSocketId st
    /\ lookupKey k (games w) = Some a
    /\ (rateLimit (address s) now (rateLimitMap w)).1 = true
    /\ (ev = Incoming s now ack (HostStartGame (JStr k))
        \/ ev = Incoming s now ack (HostNext (JStr k))).
Proof.
  intros Hstep Hst Hst' Hmoved.
  assert (Hsame : heap w' !! a = heap w !! a -> False).
  { intros H. rewrite H, Hst in Hst'. injection Hst' as <-.
    by destruct Hmoved. }
  assert (Hev : forall w1, heap w1 = heap w -> evolves w1 w' -> False).
  { intros w1 Hh Hevo.
    destruct (evolves_index w1 w' a st st' Hevo) as [? ?];
      [by rewrite Hh|done|]. destruct Hmoved; congruence. }
  destruct ev as [s now ack req| s | t]; simpl in Hstep.
  - unfold wrapRateLimit in Hstep.
    destruct (rateLimit (address s) now (rateLimitMap w)) as [admitted m] eqn:Hrl.
    destruct admitted; simpl in Hstep.
    2:{ injection Hstep as <-. exfalso. apply Hsame.
        unfold reply. by destruct ack. }
    destruct req; simpl in Hstep.
    + exfalso. apply Hsame. unfold host_createGame in Hstep.
      destruct (MAX_GAMES <=? _)%nat.
      { injection Hstep as <-. unfold reply. by destruct ack. }
      destruct (negb (validateQuizPayload payload)).
      { injection Hstep as <-. unfold reply. by destruct ack. }
      destruct (createGameState (socketId s) payload newId rands) as [st0|];
        [|done].
      injection Hstep as <-. rewrite Hst.
      unfold broadcastLobby, reply, emit, withGames, alloc.
      destruct ack; simpl; by apply lookup_app_l_Some.
    + unfold host_startGame in Hstep.
      destruct (getGame gameId (withRateLimitMap m w)) as [[b st0]|] eqn:Hg.
      2:{ injection Hstep as <-. by destruct Hsame. }
      apply getGame_Some in Hg as (k & -> & Hk & Hb). simpl in Hk, Hb.
      destruct (negb (String.eqb (Game.hostSocketId st0) (socketId s))
                || Game.started st0) eqn:Hguard.
      { injection Hstep as <-. by destruct Hsame. }
      apply orb_false_iff in Hguard as [Hhost _].
      apply negb_false_iff, String.eqb_eq in Hhost.
      destruct (decide (b = a)) as [->|Hne].
      * exists s, now, ack, k. replace st0 with st in * by congruence.
        rewrite Hrl. eauto.
      * exfalso. apply Hsame.
        rewrite (startQuestion_other b now _ w' a Hne Hstep).
        unfold emit, store. simpl. by rewrite list_lookup_insert_ne.
    + unfold host_next in Hstep.
      destruct (getGame gameId (withRateLimitMap m w)) as [[b st0]|] eqn:Hg.
      2:{ injection Hstep as <-. by destruct Hsame. }
      apply getGame_Some in Hg as (k & -> & Hk & Hb). simpl in Hk, Hb.
      destruct (negb (String.eqb (Game.hostSocketId st0) (socketId s)))
        eqn:Hhost.
      { injection Hstep as <-. by destruct Hsame. }
      apply negb_false_iff, String.eqb_eq in Hhost.
      destruct (decide (b = a)) as [->|Hne].
      * exists s, now, ack, k. replace st0 with st in * by congruence.
        rewrite Hrl. eauto.
      * exfalso. apply Hsame.
        by rewrite (startQuestion_other b now _ w' a Hne Hstep).
    + exfalso. apply (Hev (withRateLimitMap m w)); [done|].
      by eapply player_join_evolves.
    + exfalso. apply (Hev (withRateLimitMap m w)); [done|].
      by eapply player_answer_evolves.
  - exfalso. apply (Hev w); [done|]. by eapply disconnectLoop_evolves.
  - exfalso. apply (Hev w); [done|]. by eapply timerFires_evolves.
Qed.

(** The start of the sample game is the host's doing. *)
Lemma only_host_advances_witness :
  exists s now ack k,
    socketId s = "host"
    /\ lookupKey k (games (worldAfter lobbyRun)) = Some 0%nat
    /\ (rateLimit (address s) now (rateLimitMap (worldAfter lobbyRun))).1
       = true
    /\ (Incoming hostSocket 3000 false (HostStartGame (JStr "ABCD"))
        = Incoming s now ack (HostStartGame (JStr k))
        \/ Incoming hostSocket 3000 false (HostStartGame (JStr "ABCD"))
           = Incoming s now ack (HostNext (JStr k))).
Proof.
  apply (only_host_advances (worldAfter lobbyRun)
           (Incoming hostSocket 3000 false (HostStartGame (JStr "ABCD")))
           (worldAfter startedRun) 0%nat
           (default sampleRoundGame (sessionAfter lobbyRun))
           (default sampleRoundGame (sessionAfter startedRun))).
  - vm_compute. reflexivity.
  - vm_compute. reflexivity.
  - vm_compute. reflexivity.
  - left. vm_compute. discriminate.
Defined.

(** X17. Every round starts clean. When [startQuestion] finds a next
    question, it opens a round at the current time in which every player
    is awaited, in joining order; each player keeps name and score and
    loses the option, the timestamp and the [lastCorrect] mark of the
    round before; the room is sent the question with its index and the
    total, and the registry is left as it is. *)
Theorem startQuestion_opens_round a now w st q :
  reachable w ->
  heap w !! a = Some st ->
  Game.questions st !! Z.to_nat (Game.currentIndex st + 1) = Some q ->
  exists w' st' r,
    startQuestion a now w = Ok w'
    /\ heap w' !! a = Some st'
    /\ Game.round st' = Some r
    /\ currentQuestion st' = Some q
    /\ Round.startMs r = now
    /\ Round.awaiting r = map fst (Game.players st)
    /\ map fst (Game.players st') = map fst (Game.players st)
    /\ (forall k,
          lookupKey k (Game.players st')
          = (fun p => Player.mk (Player.name p) (Player.score p) None JNull false)
              <$> lookupKey k (Game.players st))
    /\ games w' = games w
    /\ outbox w'
       = (outbox w
          ++ [(Room (Game.id st),
               QuestionShow (Question.id q) (Game.currentIndex st + 1)
                 (Z.of_nat (length (Game.questions st)))
                 (Question.text q) (Question.imageUrl q)
                 (Question.timeLimitSeconds q) (Question.options q))])%list.
Proof.
  intros Hreach Hst Hq.
  destruct (reachable_inv w Hreach) as (I1 & _ & _).
  destruct (I1 a st Hst) as (G1 & _ & _ & _).
  assert (Ha : (a < length (heap w))%nat) by (by eapply lookup_lt_Some).
  pose proof (lookup_lt_Some _ _ _ Hq) as Hlt.
  unfold startQuestion. rewrite Hst.
  cbn [Game.questions Game.currentIndex Game.withCurrentIndex].
  destruct (Z.leb_spec (Z.of_nat (length (Game.questions st)))
              (Game.currentIndex st + 1)); [lia|].
  unfold currentQuestion.
  cbn [Game.questions Game.currentIndex Game.withCurrentIndex].
  destruct (Z.ltb_spec (Game.currentIndex st + 1) 0); [lia|].
  rewrite Hq. eexists _, _, _. split; [reflexivity|].
  unfold emit, store, setTimeout. simpl.
  split; [by rewrite list_insert_insert_eq, list_lookup_insert_eq|].
  split; [reflexivity|]. simpl.
  destruct (Z.ltb_spec (Game.currentIndex st + 1) 0); [lia|].
  split; [exact Hq|]. split; [reflexivity|].
  split; [apply map_fst_values|]. split; [apply map_fst_values|].
  split; [intros k; apply lookupKey_map|].
  split; reflexivity.
Qed.

(** The start of the sample game opens the round of its question. *)
Lemma startQuestion_opens_round_witness :
  exists w' st' r,
    startQuestion 0 3000 (worldAfter lobbyRun) = Ok w'
    /\ heap w' !! 0%nat = Some st'
    /\ Game.round st' = Some r
    /\ Round.awaiting r = ["ann"].
Proof.
  destruct (startQuestion_opens_round 0%nat 3000 (worldAfter lobbyRun)
              (default sampleRoundGame (sessionAfter lobbyRun))
              (default sampleQuestion
                 (currentQuestion
                    (default sampleRoundGame (sessionAfter startedRun)))))
    as (w' & st' & r & H1 & H2 & H3 & _ & _ & H6 & _).
  - apply (run_reachable lobbyRun initialWorld); [apply reachable_init|].
    vm_compute. reflexivity.
  - vm_compute. reflexivity.
  - vm_compute. reflexivity.
  - exists w', st', r. split; [exact H1|]. split; [exact H2|].
    split; [exact H3|]. rewrite H6. vm_compute. reflexivity.
Defined.
